(** * multi-torr: the stream aggregation pipeline

    A shallow embedding of the scraper backend (the module that holds
    [getIdType], [getQualitySymbol], [sortStreams], [getStreams] and the
    [/stream/:type/:id.json] route) together with the properties stated about
    it.

    Conventions of the embedding.

    - A JavaScript string is a Rocq [string] holding its UTF-8 bytes.  Every
      pattern of the source tests ASCII characters only, and UTF-8 keeps an
      ASCII character as one byte that occurs nowhere inside the encoding of
      another character, so the patterns read the same positions.  Case
      mapping and white space are modelled on the ASCII range: bytes above
      127 pass through [toLowerCase] and [toUpperCase] unchanged and are not
      white space.
    - A JavaScript number is [NaN] or an integer [Z].
    - A value that may be [null] or [undefined] is an [option]; a field of a
      provider's result is an optional string.
    - [try]/[catch] is an error monad: a computation ends in [Normal v] or in
      [Throw msg].
    - The network is a function from the requested URL to what the request
      ends in; the order in which the concurrent requests settle is a list of
      scheduler choices. *)

From Stdlib Require Import ZArith Ascii Lia.
From stdpp Require Import base list strings gmap sorting.

Local Open Scope Z_scope.

(** ** Characters *)

Module Char.

Definition code (c : ascii) : N := N_of_ascii c.

Definition between (lo hi : N) (c : ascii) : bool :=
  ((lo <=? code c) && (code c <=? hi))%N.

(** [\d] *)
Definition isDigit : ascii -> bool := between 48 57.
Definition isUpper : ascii -> bool := between 65 90.
Definition isLower : ascii -> bool := between 97 122.

Definition toLower (c : ascii) : ascii :=
  if isUpper c then ascii_of_N (code c + 32) else c.
Definition toUpper (c : ascii) : ascii :=
  if isLower c then ascii_of_N (code c - 32) else c.

(** Two characters are the same under the [i] flag. *)
Definition eqi (a b : ascii) : bool := Ascii.eqb (toLower a) (toLower b).

(** [[a-f0-9]] under the [i] flag. *)
Definition isHex (c : ascii) : bool := isDigit c || between 97 102 (toLower c).

(** [\s] and the characters removed by [trim]. *)
Definition isSpace (c : ascii) : bool := between 9 13 c || (code c =? 32)%N.

Definition digitVal (c : ascii) : Z := Z.of_N (code c) - 48.

(** The value of a hexadecimal digit, for [parseInt] with radix 16. *)
Definition hexVal (c : ascii) : Z :=
  if isDigit c then digitVal c else Z.of_N (code (toLower c)) - 87.

(** The characters [encodeURIComponent] leaves as they are. *)
Definition isUnreserved (c : ascii) : bool :=
  isDigit c || isUpper c || isLower c ||
  match c with
  | "-" | "_" | "." | "!" | "~" | "*" | "'" | "(" | ")" => true
  | _ => false
  end%char.

Definition hexDigit (n : N) : ascii :=
  if (n <? 10)%N then ascii_of_N (48 + n) else ascii_of_N (55 + n).

End Char.

(** ** Strings *)

Module Str.

Fixpoint map (f : ascii -> ascii) (s : string) : string :=
  match s with
  | EmptyString => EmptyString
  | String c s' => String (f c) (map f s')
  end.

Definition toLowerCase : string -> string := map Char.toLower.
Definition toUpperCase : string -> string := map Char.toUpper.

Fixpoint all (P : ascii -> bool) (s : string) : bool :=
  match s with
  | EmptyString => true
  | String c s' => P c && all P s'
  end.

Definition nonEmpty (s : string) : bool :=
  match s with EmptyString => false | _ => true end.

(** [s.startsWith(p)] *)
Fixpoint startsWith (p s : string) : bool :=
  match p, s with
  | EmptyString, _ => true
  | String a p', String b s' => Ascii.eqb a b && startsWith p' s'
  | String _ _, EmptyString => false
  end.

(** The longest prefix whose characters satisfy [P], and the rest. *)
Fixpoint span (P : ascii -> bool) (s : string) : string * string :=
  match s with
  | EmptyString => (EmptyString, EmptyString)
  | String c s' =>
      if P c then let '(a, r) := span P s' in (String c a, r)
      else (EmptyString, s)
  end.

Fixpoint dropWhile (P : ascii -> bool) (s : string) : string :=
  match s with
  | EmptyString => EmptyString
  | String c s' => if P c then dropWhile P s' else s
  end.

(** The part of [s] after its last character that fails [P] is dropped. *)
Fixpoint dropWhileEnd (P : ascii -> bool) (s : string) : string :=
  match s with
  | EmptyString => EmptyString
  | String c s' =>
      match dropWhileEnd P s' with
      | EmptyString => if P c then EmptyString else String c EmptyString
      | r => String c r
      end
  end.

(** [s.slice(n)]: the text from position [n] on. *)
Fixpoint drop (n : nat) (s : string) : string :=
  match n, s with
  | O, _ => s
  | S n', String _ s' => drop n' s'
  | S _, EmptyString => EmptyString
  end.

(** [s.trim()] *)
Definition trim (s : string) : string :=
  dropWhileEnd Char.isSpace (dropWhile Char.isSpace s).

(** [s.includes(p)] *)
Fixpoint includes (p s : string) : bool :=
  startsWith p s ||
  match s with
  | EmptyString => false
  | String _ s' => includes p s'
  end.

(** [s.replace(p, r)] for a string pattern: the first occurrence only. *)
Fixpoint replace (p r s : string) : string :=
  if startsWith p s then r +:+ drop (String.length p) s
  else match s with
       | EmptyString => EmptyString
       | String c s' => String c (replace p r s')
       end.

(** [s.replace(/c/i, '')] for a one-letter pattern [c]. *)
Fixpoint removeFirst_i (c : ascii) (s : string) : string :=
  match s with
  | EmptyString => EmptyString
  | String d s' => if Char.eqi c d then s' else String d (removeFirst_i c s')
  end.

(** [s.split(sep)] for a one-character separator. *)
Fixpoint split (sep : ascii) (s : string) : list string :=
  match s with
  | EmptyString => [EmptyString]
  | String c s' =>
      if Ascii.eqb c sep then EmptyString :: split sep s'
      else match split sep s' with
           | [] => [String c EmptyString]
           | w :: ws => String c w :: ws
           end
  end.

(** [parts.join(sep)] *)
Fixpoint join (sep : string) (parts : list string) : string :=
  match parts with
  | [] => EmptyString
  | [p] => p
  | p :: ps => p +:+ sep +:+ join sep ps
  end.

(** The decimal value of a string of digits. *)
Definition decimal (s : string) : Z :=
  let fix go (acc : Z) (s : string) : Z :=
    match s with
    | EmptyString => acc
    | String c s' => go (10 * acc + Char.digitVal c) s'
    end in
  go 0 s.

Definition hexadecimal (s : string) : Z :=
  let fix go (acc : Z) (s : string) : Z :=
    match s with
    | EmptyString => acc
    | String c s' => go (16 * acc + Char.hexVal c) s'
    end in
  go 0 s.

(** [encodeURIComponent(s)]: every byte that is not unreserved becomes
    [%XX]. *)
Fixpoint encodeURIComponent (s : string) : string :=
  match s with
  | EmptyString => EmptyString
  | String c s' =>
      if Char.isUnreserved c then String c (encodeURIComponent s')
      else String "%" (String (Char.hexDigit (Char.code c / 16))
                      (String (Char.hexDigit (Char.code c mod 16))
                      (encodeURIComponent s')))
  end.

End Str.

(** ** Values *)

(** [v || d] where [v] is a string or absent: the empty string is falsy. *)
Definition truthy (v : option string) : bool :=
  match v with
  | Some s => Str.nonEmpty s
  | None => false
  end.

Definition orElse (v : option string) (d : string) : string :=
  match v with
  | Some s => if Str.nonEmpty s then s else d
  | None => d
  end.

Inductive Num : Type :=
  | NaN
  | Int (z : Z).

(** [a === b] on numbers *)
Definition strictEq (a b : Num) : bool :=
  match a, b with
  | Int x, Int y => x =? y
  | _, _ => false
  end.

(** The comparison of [Array.prototype.includes], under which [NaN] is found. *)
Definition sameValueZero (a b : Num) : bool :=
  match a, b with
  | Int x, Int y => x =? y
  | NaN, NaN => true
  | _, _ => false
  end.

Definition includes (l : list Num) (x : Num) : bool :=
  existsb (fun y => sameValueZero y x) l.

(** [parseInt(s)] without a radix: leading white space, a sign, then the
    longest run of digits, hexadecimal after [0x]. *)
Definition parseInt (s : string) : Num :=
  let s1 := Str.dropWhile Char.isSpace s in
  let '(sign, s2) :=
    match s1 with
    | String "-" r => (-1, r)
    | String "+" r => (1, r)
    | _ => (1, s1)
    end in
  match s2 with
  | String "0" (String x r) =>
      if Char.eqi x "x" then
        let '(ds, _) := Str.span Char.isHex r in
        if Str.nonEmpty ds then Int (sign * Str.hexadecimal ds) else NaN
      else
        let '(ds, _) := Str.span Char.isDigit s2 in Int (sign * Str.decimal ds)
  | _ =>
      let '(ds, _) := Str.span Char.isDigit s2 in
      if Str.nonEmpty ds then Int (sign * Str.decimal ds) else NaN
  end.

(** ** Patterns

    A pattern is run at one position: given the text from that position on,
    it answers with what it matched.  [search] is the loop of [match] and
    [test], which tries the positions from left to right; [matchAll] is the
    loop of the [g] flag, which goes on after the end of each match. *)

Module Regex.

Fixpoint search {A : Type} (m : string -> option A) (s : string) : option A :=
  match m s with
  | Some r => Some r
  | None =>
      match s with
      | EmptyString => None
      | String _ s' => search m s'
      end
  end.

Fixpoint matchAll_from (m : string -> option string) (skip : nat) (s : string)
  : list string :=
  match s with
  | EmptyString =>
      match skip, m EmptyString with
      | O, Some a => [a]
      | _, _ => []
      end
  | String _ s' =>
      match skip with
      | S k => matchAll_from m k s'
      | O =>
          match m s with
          | Some a => a :: matchAll_from m (String.length a - 1) s'
          | None => matchAll_from m O s'
          end
      end
  end.

Definition matchAll (m : string -> option string) (s : string) : list string :=
  matchAll_from m O s.

(** A literal under the [i] flag: the matched text and the rest. *)
Fixpoint lit_i (p s : string) : option (string * string) :=
  match p, s with
  | EmptyString, _ => Some (EmptyString, s)
  | String a p', String b s' =>
      if Char.eqi a b then
        match lit_i p' s' with
        | Some (t, r) => Some (String b t, r)
        | None => None
        end
      else None
  | String _ _, EmptyString => None
  end.

(** [\d{n}] *)
Fixpoint digits (n : nat) (s : string) : option (string * string) :=
  match n with
  | O => Some (EmptyString, s)
  | S n' =>
      match s with
      | String c s' =>
          if Char.isDigit c then
            match digits n' s' with
            | Some (t, r) => Some (String c t, r)
            | None => None
            end
          else None
      | EmptyString => None
      end
  end.

(** [m1] followed by [m2] *)
Definition andThen (m1 m2 : string -> option (string * string)) (s : string)
  : option (string * string) :=
  match m1 s with
  | Some (a, r) =>
      match m2 r with
      | Some (b, r') => Some (a +:+ b, r')
      | None => None
      end
  | None => None
  end.

(** [m1|m2]: the first alternative that matches. *)
Definition orElse {A : Type} (m1 m2 : string -> option A) (s : string) : option A :=
  match m1 s with
  | Some x => Some x
  | None => m2 s
  end.

Definition matched (m : string -> option (string * string)) (s : string)
  : option string :=
  fst <$> m s.

(** [/^\d+$/] *)
Definition allDigits (s : string) : bool :=
  Str.nonEmpty s && Str.all Char.isDigit s.

(** [/btih:([a-f0-9]+)/i] at one position: the capture. *)
Definition btih (s : string) : option string :=
  match lit_i "btih:" s with
  | Some (_, r) =>
      let '(h, _) := Str.span Char.isHex r in
      if Str.nonEmpty h then Some h else None
  | None => None
  end.

(** [/\d{3,4}p|4k|uhd|HDTS|CAM/i] at one position: the matched text.  The
    greedy [\d{3,4}] takes four digits first and falls back to three when
    no [p] follows. *)
Definition quality : string -> option string :=
  matched
    (orElse (andThen (digits 4) (lit_i "p"))
    (orElse (andThen (digits 3) (lit_i "p"))
    (orElse (lit_i "4k")
    (orElse (lit_i "uhd")
    (orElse (lit_i "HDTS")
            (lit_i "CAM")))))).

(** [/\d+(\.\d+)?\s*(GB|MB)/i] at one position: the matched text.  Giving
    back a digit or a blank never helps here, because what follows a
    shorter run is again a digit or a blank, which neither the next
    piece nor [GB|MB] accepts; so the greedy choices are the only ones. *)
Definition size (s : string) : option string :=
  let '(int, r1) := Str.span Char.isDigit s in
  if Str.nonEmpty int then
    let '(frac, r2) :=
      match r1 with
      | String "." r =>
          let '(ds, r') := Str.span Char.isDigit r in
          if Str.nonEmpty ds then (String "." ds, r') else (EmptyString, r1)
      | _ => (EmptyString, r1)
      end in
    let '(sp, r3) := Str.span Char.isSpace r2 in
    match orElse (lit_i "GB") (lit_i "MB") r3 with
    | Some (unit, _) => Some (int +:+ frac +:+ sp +:+ unit)
    | None => None
    end
  else None.

(** [\d{1,2}], greedy, with nothing after it that could make it give a
    digit back. *)
Definition digits12 (s : string) : option (string * string) :=
  orElse (digits 2) (digits 1) s.

(** [/s(\d{1,2})e(\d{1,2})/i] at one position: the two captures.  The
    first group takes two digits and falls back to one when no [e]
    follows; [sxxexx_tail n] is what comes after the [s] when the first
    group takes [n] digits. *)
Definition sxxexx_tail (n : nat) (r : string) : option (string * string) :=
  match digits n r with
  | Some (d1, r1) =>
      match lit_i "e" r1 with
      | Some (_, r2) =>
          match digits12 r2 with
          | Some (d2, _) => Some (d1, d2)
          | None => None
          end
      | None => None
      end
  | None => None
  end.

Definition sxxexx (s : string) : option (string * string) :=
  match lit_i "s" s with
  | Some (_, r) => orElse (sxxexx_tail 2) (sxxexx_tail 1) r
  | None => None
  end.

(** [/s(\d{1,2})/gi] and [/e(\d{1,2})/gi] at one position: the matched
    text, letter included. *)
Definition letterDigits (c : string) : string -> option string :=
  matched (andThen (lit_i c) digits12).

End Regex.

(** ** Errors *)

Inductive Completion (A : Type) : Type :=
  | Normal (v : A)
  | Throw (msg : string).
Arguments Normal {A} v.
Arguments Throw {A} msg.

(** [try { c } catch (error) { h }] *)
Definition tryCatch {A : Type} (c : Completion A) (h : string -> Completion A) : Completion A :=
  match c with
  | Normal v => Normal v
  | Throw msg => h msg
  end.

(** ** Data model *)

(** An entry of [STREAM_SOURCES]. *)
Record Source : Type := {
  key : string;
  url : string;
  name : string
}.

(** The display names are opaque labels; they are kept as their UTF-8
    bytes. *)
Definition STREAM_SOURCES : list Source := [
  {| key := "cf_jacred";   url := "https://extto.h-y.workers.dev";     name := "ᒍᗩᑕᖇEᗪ" |};
  {| key := "cf_btsow";    url := "https://chrome-en.h-y.workers.dev"; name := "𝐁𝐓𝐒𝐨𝐰" |};
  {| key := "cf_testittv"; url := "https://testittv.h-y.workers.dev";  name := "𝙻𝙸𝙼𝙴𝚃𝙾𝚁𝚁𝙴𝙽𝚃𝚂" |};
  {| key := "cf_1337";     url := "https://1337x.h-y.workers.dev";     name := "1️3️⃣3️⃣7️⃣" |};
  {| key := "cf_yts";      url := "https://vercel-tgx.vercel.app";     name := "TOᖇᖇEᑎTGᗩᒪᗩ᙭Y" |};
  {| key := "cf_uindex";   url := "https://uindex.h-y.workers.dev";    name := "【ＵＩＮＤＥＸ】" |}
].

(** One element of a provider's [results] array, after the provider's name
    was put into [source]. *)
Record RawResult : Type := {
  magnetLink : option string;
  title : option string;
  filename : option string;
  quality : option string;
  size : option string;
  source : option string
}.

(** What the deduplication pushes for a result it keeps. *)
Record Candidate : Type := {
  c_hash : string;
  c_magnetLink : string;
  c_filename : string;
  c_websiteTitle : string;
  c_quality : string;
  c_size : string;
  c_source : string
}.

(** An element of the [streams] array of the response. *)
Record Stream : Type := {
  s_name : string;
  s_title : string;
  s_url : string;
  s_infoHash : string;
  s_notWebReady : bool
}.

(** The value of [data] after [response.json()]. *)
Inductive Payload : Type :=
  | NoResults                        (* [data] or [data.results] is null or undefined *)
  | NotAnArray (length : nat)        (* [results] has a length but no [map] *)
  | Results (results : list RawResult).

Inductive Body : Type :=
  | NotJson                          (* [response.json()] rejects *)
  | Json (data : Payload).

(** What [fetchWithTimeout] ends in. *)
Inductive Outcome : Type :=
  | Rejected (msg : string)          (* the request fails *)
  | TimedOut                         (* the timer of the race fires first *)
  | Responded (ok : bool) (status : Z) (body : Body).

(** ** [getIdType] *)

Inductive IdType : Type := imdb | tmdb.

Definition getIdType (id : string) : option IdType :=
  if Str.startsWith "tt" id then Some imdb
  else if Str.startsWith "tmdb-" id then Some tmdb
  else if Regex.allDigits id then Some tmdb
  else None.

(** ** [getQualitySymbol] *)

Definition getQualitySymbol (quality : string) : string :=
  let qualityStr := Str.toLowerCase quality in
  if Str.includes "2160" qualityStr || Str.includes "4k" qualityStr
     || Str.includes "uhd" qualityStr then "💨"
  else if Str.includes "1080" qualityStr then "🎛️"
  else if Str.includes "720" qualityStr then "🁬"
  else if Str.includes "480" qualityStr then "⛃"
  else if Str.includes "cam" qualityStr || Str.includes "hdts" qualityStr then "🎲"
  else "🃠".

(** ** [Array.prototype.sort]

    The language requires the sort to be stable, and [sortStreams] gives it
    a comparator that is a total preorder; the result is then the one stable
    sorted arrangement of the array, whatever algorithm the engine runs.
    The insertion sort below is such an algorithm: an element is put before
    the first element it is strictly smaller than. *)

Section Sort.
Context {A : Type} (compareFn : A -> A -> Z).

Fixpoint insertSorted (x : A) (l : list A) : list A :=
  match l with
  | [] => [x]
  | y :: l' => if compareFn x y <? 0 then x :: l else y :: insertSorted x l'
  end.

Definition sort (l : list A) : list A :=
  fold_left (fun acc x => insertSorted x acc) l [].
End Sort.

(** ** [sortStreams]

    [parseQuality] and [parseSize] come from the utility module, which gives
    a number for the name of a stream: the quality tier and the size in
    MB. *)

Section SortStreams.
Variable parseQuality : string -> Z.
Variable parseSize : string -> Z.

(** An entry of [idealSizeRanges]; [max] is absent for [Infinity]. *)
Record Range : Type := { min : Z; max : option Z }.

Definition idealSizeRanges (quality : Z) : option Range :=
  if quality =? 2160 then Some {| min := 10000; max := Some 80000 |}
  else if quality =? 1080 then Some {| min := 2000; max := Some 16000 |}
  else if quality =? 720 then Some {| min := 1000; max := Some 8000 |}
  else if quality =? 480 then Some {| min := 500; max := Some 4000 |}
  else None.

Definition idealRange (quality : Z) : Range :=
  default {| min := 0; max := None |} (idealSizeRanges quality).

Definition getIdealScore (size : Z) (range : Range) : Z :=
  match max range with
  | Some hi =>
      if (min range <=? size) && (size <=? hi) then 0
      else if size <? min range then min range - size
      else size - hi
  | None =>
      if min range <=? size then 0 else min range - size
  end.

Definition compareStreams (a b : Stream) : Z :=
  let qualityA := parseQuality (s_name a) in
  let qualityB := parseQuality (s_name b) in
  let sizeA := parseSize (s_name a) in
  let sizeB := parseSize (s_name b) in
  if negb (qualityA =? qualityB) then qualityB - qualityA
  else
    let scoreA := getIdealScore sizeA (idealRange qualityA) in
    let scoreB := getIdealScore sizeB (idealRange qualityA) in
    if negb (scoreA =? scoreB) then scoreA - scoreB
    else sizeB - sizeA.

Definition sortStreams (streams : list Stream) : list Stream :=
  sort compareStreams streams.
End SortStreams.

(** ** [Promise.all]

    [Promise.all] keeps one slot per promise and writes the value of a
    promise into its slot when the promise settles; it resolves with the
    slots once every promise has settled.  The provider promises settle in
    an order the program does not control: [picks] is the list of the
    scheduler's choices, each one selecting which of the promises still
    pending settles next. *)

Section PromiseAll.
Context {A : Type}.

Fixpoint settle (n : nat) (picks : list nat) (pending : list (nat * A))
    (values : list (option A)) : list (option A) :=
  match n with
  | O => values
  | S n' =>
      let k := (hd O picks `mod` length pending)%nat in
      match pending !! k with
      | Some (i, v) => settle n' (tl picks) (delete k pending) (<[i := Some v]> values)
      | None => values
      end
  end.

Definition Promise_all (picks : list nat) (promises : list A) : list A :=
  let n := length promises in
  omap id (settle n picks (imap pair promises) (replicate n None)).
End PromiseAll.

(** ** [getStreams] *)

Section GetStreams.
(** The provider table, the scheduler's choices and the network. *)
Variable sources : list Source.
Variable picks : list nat.
Variable net : string -> Outcome.

Definition apiUrl (type query : string) (source : Source) : string :=
  url source +:+ "/api/search?type=" +:+ type +:+ "&query="
    +:+ Str.encodeURIComponent query.

(** [{ ...result, source: source.name }] *)
Definition withSource (source : Source) (result : RawResult) : RawResult :=
  {| magnetLink := magnetLink result;
     title := title result;
     filename := filename result;
     quality := quality result;
     size := size result;
     source := Some (name source) |}.

(** The body of the callback given to [Object.values(STREAM_SOURCES).map]:
    every way out other than a non-empty [results] array gives [[]]. *)
Definition fetchSource (type query : string) (source : Source) : list RawResult :=
  let handler (_ : string) : Completion (list RawResult) := Normal [] in
  let attempt : Completion (list RawResult) :=
    match net (apiUrl type query source) with
    | Rejected msg => Throw msg
    | TimedOut => Throw "Timeout after 10000ms"
    | Responded ok status body =>
        if negb ok then Normal []
        else
          match body with
          | NotJson => Throw "SyntaxError"
          | Json NoResults => Normal []
          | Json (NotAnArray O) => Normal []
          | Json (NotAnArray (S _)) => Throw "TypeError: data.results.map is not a function"
          | Json (Results []) => Normal []
          | Json (Results results) => Normal (map (withSource source) results)
          end
    end in
  match tryCatch attempt handler with
  | Normal results => results
  | Throw _ => []
  end.

(** [stream.magnetLink.match(/btih:([a-f0-9]+)/i)?.[1]?.toLowerCase()] *)
Definition extractHash (magnet : string) : option string :=
  Str.toLowerCase <$> Regex.search Regex.btih magnet.

Definition deriveQuality (stream : RawResult) : string :=
  orElse (quality stream)
    (orElse (title stream ≫= Regex.search Regex.quality) "").

Definition deriveSize (stream : RawResult) : string :=
  orElse (size stream)
    (orElse (title stream ≫= Regex.search Regex.size) "").

Definition deriveFilename (stream : RawResult) : string :=
  orElse (filename stream)
    (orElse ((fun t => Str.trim (hd "" (Str.split "010" t))) <$> title stream)
       "Unknown").

Definition toCandidate (hash magnet : string) (stream : RawResult) : Candidate :=
  let filename := deriveFilename stream in
  {| c_hash := hash;
     c_magnetLink := magnet;
     c_filename := filename;
     c_websiteTitle := orElse (title stream) filename;
     c_quality := deriveQuality stream;
     c_size := deriveSize stream;
     c_source := orElse (source stream) "Unknown" |}.

(** The callback of [reduce], with [seenMagnets] made part of the
    accumulator.  With string fields nothing in it throws, so its
    [catch] is never entered. *)
Definition dedupeStep (acc : gset string * list Candidate) (stream : RawResult)
  : gset string * list Candidate :=
  let '(seenMagnets, unique) := acc in
  if negb (truthy (magnetLink stream)) then acc
  else
    let magnet := default "" (magnetLink stream) in
    let hash := extractHash magnet in
    if negb (truthy hash) then acc
    else
      let hash := default "" hash in
      if decide (hash ∈ seenMagnets) then acc
      else ({[hash]} ∪ seenMagnets, unique ++ [toCandidate hash magnet stream]).

Definition dedupe (streams : list RawResult) : list Candidate :=
  snd (fold_left dedupeStep streams (∅, [])).

(** The callback of [combinedResults.filter] for a series: the text it
    reads, and its decision on that text. *)
Definition episodeTitle (stream : Candidate) : string :=
  Str.toLowerCase
    (orElse (Some (c_filename stream)) (orElse (Some (c_websiteTitle stream)) "")).

Definition titleMatches (seasonNum episodeNum : Num) (title : string) : bool :=
  match Regex.search Regex.sxxexx title with
  | Some (g1, g2) =>
      strictEq (parseInt g1) seasonNum && strictEq (parseInt g2) episodeNum
  | None =>
      let seasonMatches := Regex.matchAll (Regex.letterDigits "s") title in
      let episodeMatches := Regex.matchAll (Regex.letterDigits "e") title in
      let seasons := map (fun m => parseInt (Str.removeFirst_i "s" m)) seasonMatches in
      let episodes := map (fun m => parseInt (Str.removeFirst_i "e" m)) episodeMatches in
      includes seasons seasonNum && includes episodes episodeNum
      && (length seasons =? 1)%nat && (length episodes =? 1)%nat
  end.

Definition matchesEpisode (seasonNum episodeNum : Num) (stream : Candidate) : bool :=
  titleMatches seasonNum episodeNum (episodeTitle stream).

Definition isSeries (type : string) : bool := String.eqb type "series".

(** [id] without its [tmdb-] prefix. *)
Definition actualId (id : string) : string :=
  if Str.startsWith "tmdb-" id then Str.replace "tmdb-" "" id else id.

(** The query string, or the error of a series without season or
    episode. *)
Definition buildQuery (type actualId : string) (season episode : option string)
  : Completion string :=
  if isSeries type then
    if negb (truthy season) || negb (truthy episode)
    then Throw "Season and episode required for series"
    else Normal (actualId +:+ ":" +:+ default "" season +:+ ":" +:+ default "" episode)
  else Normal actualId.

(** The [try] block of [getStreams]: the URLs requested and how the block
    ends. *)
Definition getStreams_try (type id : string) (season episode : option string)
  : list string * Completion (list Candidate) :=
  match getIdType id with
  | None => ([], Normal [])
  | Some _ =>
      match buildQuery type (actualId id) season episode with
      | Throw msg => ([], Throw msg)
      | Normal query =>
          let fetchPromises := map (fetchSource type query) sources in
          let allResults := Promise_all picks fetchPromises in
          let combinedResults := dedupe (concat allResults) in
          let combinedResults :=
            if isSeries type && truthy season && truthy episode then
              let seasonNum := parseInt (default "" season) in
              let episodeNum := parseInt (default "" episode) in
              filter (fun stream => matchesEpisode seasonNum episodeNum stream)
                combinedResults
            else combinedResults in
          (map (apiUrl type query) sources, Normal combinedResults)
      end
  end.

(** [getStreams]: whatever the [try] block throws is logged and turned
    into the empty list. *)
Definition getStreams (type id : string) (season episode : option string)
  : list string * Completion (list Candidate) :=
  let '(requests, outcome) := getStreams_try type id season episode in
  (requests, tryCatch outcome (fun _ => Normal [])).

(** ** The route [/stream/:type/:id.json] *)

(** [detectVideoFeatures] comes from the utility module and gives the
    list of feature labels of a file name. *)
Variable detectVideoFeatures : string -> list string.
Variable parseQuality : string -> Z.
Variable parseSize : string -> Z.

Definition formatStream (stream : Candidate) : Stream :=
  let features := detectVideoFeatures (c_filename stream) in
  let featureStr := Str.join " | " features in
  let qualityDisplay := Str.toUpperCase (c_quality stream) in
  let qualitySymbol :=
    getQualitySymbol (orElse (Some qualityDisplay) (c_filename stream)) in
  let streamName :=
    Str.join " | "
      (filter (fun s => Str.nonEmpty s = true)
         [qualitySymbol; qualityDisplay; c_size stream; c_source stream]) in
  let streamTitle :=
    Str.join (String "010" "")
      (filter (fun s => Str.nonEmpty s = true)
         [c_filename stream;
          Str.join " | "
            (filter (fun s => Str.nonEmpty s = true)
               ["☠︎ " +:+ c_source stream; featureStr])]) in
  {| s_name := streamName;
     s_title := streamTitle;
     s_url := c_magnetLink stream;
     s_infoHash := c_hash stream;
     s_notWebReady := true |}.

(** The handler: its parameters, then the URLs requested and the
    [streams] of the response.
    No candidate makes [formatStream] throw, so no element of
    [formattedStreams] is [null] and [filter(Boolean)] keeps them all. *)
Definition routeParams (type id : string) : string * option string * option string :=
  if isSeries type then
    let parts := Str.split ":" id in
    (hd "" parts, parts !! 1%nat, parts !! 2%nat)
  else (id, None, None).

Definition streamRoute (type id : string) : list string * list Stream :=
  let '(tmdbId, season, episode) := routeParams type id in
  match getIdType tmdbId with
  | None => ([], [])
  | Some _ =>
      let '(requests, outcome) := getStreams type tmdbId season episode in
      match outcome with
      | Throw _ => (requests, [])
      | Normal [] => (requests, [])
      | Normal streams =>
          let formattedStreams := map formatStream streams in
          let sortedStreams :=
            take 50 (sortStreams parseQuality parseSize formattedStreams) in
          (requests, sortedStreams)
      end
  end.
End GetStreams.

(** ** [fetchWithSafeDNS] and [fetchWithTimeout]

    What stands behind the network of [getStreams].  The pieces the program
    takes from the platform are parameters: [hostnameOf] is [new URL(url)]
    read at [hostname], [lookup] is the resolver, and [fetch] is the request
    itself, given the URL and the agent when there is one; each of the first
    two may throw.  [elapsed] is the time the request takes to settle, and
    [timerWinsTie] says who settles first when the request and the timer
    are due at the same time. *)

(** [new https.Agent(...)] or [new http.Agent(...)], pinned to an address. *)
Record Agent : Type := {
  secure : bool;
  address : string
}.

Section Fetch.
Variable hostnameOf : string -> Completion string.
Variable lookup : string -> Completion string.
Variable fetch : string -> option Agent -> Outcome.
Variable elapsed : string -> N.
Variable timerWinsTie : bool.

(** The [return fetch(...)] of the [try] block hands the promise of the
    request back without waiting for it, so the [catch] takes what
    [new URL] and [lookup] throw and nothing of what the request does. *)
Definition fetchWithSafeDNS (url : string) : Outcome :=
  let attempt : Completion Outcome :=
    match hostnameOf url with
    | Throw msg => Throw msg
    | Normal hostname =>
        match lookup hostname with
        | Throw msg => Throw msg
        | Normal address =>
            let agent :=
              {| secure := Str.startsWith "https" url; address := address |} in
            Normal (fetch url (Some agent))
        end
    end in
  match tryCatch attempt (fun _ => Normal (fetch url None)) with
  | Normal outcome => outcome
  | Throw msg => Rejected msg
  end.

(** [Promise.race] of the request and the timer. *)
Definition fetchWithTimeout (url : string) (timeout : N) : Outcome :=
  if (timeout <? elapsed url)%N || ((timeout =? elapsed url)%N && timerWinsTie)
  then TimedOut
  else fetchWithSafeDNS url.

(** The network [getStreams] runs on: ten seconds for each request. *)
Definition network (url : string) : Outcome := fetchWithTimeout url 10000.
End Fetch.

(** * Vocabulary of the properties

    The definitions below are not part of the program: they say, in the
    words of the specification, what the program is compared with. *)

(** ** Identifiers *)

(** [^tt\d+$] *)
Definition imdbShape (id : string) : bool :=
  Str.startsWith "tt" id && Regex.allDigits (Str.drop 2 id).

(** [^\d+$] or [^tmdb-\d+$] *)
Definition tmdbShape (id : string) : bool :=
  Regex.allDigits id || (Str.startsWith "tmdb-" id && Regex.allDigits (Str.drop 5 id)).

Definition recognizedShape (id : string) : bool := imdbShape id || tmdbShape id.

(** [id] with a leading [tmdb-] taken off. *)
Definition stripTmdb (id : string) : string :=
  if Str.startsWith "tmdb-" id then Str.drop 5 id else id.

(** ** Positions of a text *)

(** [P] holds at the leftmost position of the text where it holds at all. *)
Definition firstMatch {A : Type} (P : string -> A -> Prop) (text : string) (a : A) : Prop :=
  exists n, (n <= String.length text)%nat /\ P (Str.drop n text) a /\
            forall k a', (k < n)%nat -> ~ P (Str.drop k text) a'.

Definition noMatch {A : Type} (P : string -> A -> Prop) (text : string) : Prop :=
  forall n a, ~ P (Str.drop n text) a.

(** ** The hash of a magnet link *)

Definition startsWithHex (s : string) : bool :=
  match s with
  | String c _ => Char.isHex c
  | EmptyString => false
  end.

(** The text begins with [btih:], in any letter case, and the hash [h]: the
    longest run of hexadecimal digits after it, which is not empty. *)
Inductive BtihHash : string -> string -> Prop :=
  | BtihHash_intro tag h post :
      Str.toLowerCase tag = "btih:" -> Str.all Char.isHex h = true -> h <> "" ->
      startsWithHex post = false ->
      BtihHash (tag +:+ h +:+ post) h.

(** The key of a raw result: the hash of its magnet link, when it has
    one. *)
Definition keyOf (r : RawResult) : option string :=
  match magnetLink r with
  | Some magnet => if Str.nonEmpty magnet then extractHash magnet else None
  | None => None
  end.

Definition magnetOf (r : RawResult) : string := default "" (magnetLink r).

(** The candidate made of a raw result that has a key. *)
Definition candidateOf (r : RawResult) : Candidate :=
  toCandidate (default "" (keyOf r)) (magnetOf r) r.

(** The accumulator of the deduplication after a list of raw results. *)
Definition dedupeRun (streams : list RawResult) : gset string * list Candidate :=
  fold_left dedupeStep streams (∅, []).

(** ** Quality tokens *)

(** The token set of the specification. *)
Definition claimedTokens : list string :=
  ["2160p"; "1080p"; "720p"; "480p"; "4k"; "uhd"; "hdts"; "cam"].

(** Three or four digits and the letter p. *)
Definition resolutionToken (q : string) : Prop :=
  exists d p, q = d +:+ String p "" /\ Str.all Char.isDigit d = true /\
              (String.length d = 3 \/ String.length d = 4)%nat /\
              Char.eqi "p" p = true.

(** One of the words [4k], [uhd], [hdts] and [cam], in any letter case. *)
Definition wordToken (q : string) : Prop :=
  Str.toLowerCase q ∈ ["4k"; "uhd"; "hdts"; "cam"].

(** The text begins with the quality token [q]. *)
Inductive QualityToken : string -> string -> Prop :=
  | QualityToken_intro q post :
      resolutionToken q \/ wordToken q -> QualityToken (q +:+ post) q.

(** ** Season and episode tokens *)

(** One or two digits, as [\d{1,2}] captures them. *)
Definition oneOrTwoDigits (d : string) : Prop :=
  Str.all Char.isDigit d = true /\ (String.length d = 1 \/ String.length d = 2)%nat.

Definition startsWithDigit (s : string) : bool :=
  match s with
  | String c _ => Char.isDigit c
  | EmptyString => false
  end.

(** The text begins with a combined token: the letter s, one or two digits,
    the letter e, one or two digits (two when two are there). *)
Inductive CombinedToken : string -> Z * Z -> Prop :=
  | CombinedToken_intro ls d1 le d2 post :
      Char.eqi "s" ls = true -> oneOrTwoDigits d1 ->
      Char.eqi "e" le = true -> oneOrTwoDigits d2 ->
      (String.length d2 = 1%nat -> startsWithDigit post = false) ->
      CombinedToken (String ls (d1 +:+ String le (d2 +:+ post)))
        (Str.decimal d1, Str.decimal d2).

(** The text begins with a standalone token: the letter, then one or two
    digits (two when two are there). *)
Inductive StandaloneToken (letter : ascii) : string -> Z -> Prop :=
  | StandaloneToken_intro l d post :
      Char.eqi letter l = true -> oneOrTwoDigits d ->
      (String.length d = 1%nat -> startsWithDigit post = false) ->
      StandaloneToken letter (String l (d +:+ post)) (Str.decimal d).

(** The numbers of the standalone tokens of a text, position by position. *)
Inductive AllTokens (letter : ascii) : string -> list Z -> Prop :=
  | AllTokens_end : AllTokens letter "" []
  | AllTokens_token c rest v vs :
      StandaloneToken letter (String c rest) v ->
      AllTokens letter rest vs ->
      AllTokens letter (String c rest) (v :: vs)
  | AllTokens_skip c rest vs :
      (forall v, ~ StandaloneToken letter (String c rest) v) ->
      AllTokens letter rest vs ->
      AllTokens letter (String c rest) vs.

(** The numbers the filter reads off the matches of the [g] loop started
    with [skip] characters still to jump over. *)
Definition matchedNumbers (letter : ascii) (skip : nat) (text : string) : list Num :=
  map (fun m => parseInt (Str.removeFirst_i letter m))
    (Regex.matchAll_from (Regex.letterDigits (String letter "")) skip text).

(** ** Ranking *)

(** The size-fit score in the words of the specification: each tier has an
    ideal range of sizes in MB, and the score of a size is its distance to
    that range. *)
Definition idealBounds (tier : Z) : Z * option Z :=
  if decide (tier = 2160) then (10000, Some 80000)
  else if decide (tier = 1080) then (2000, Some 16000)
  else if decide (tier = 720) then (1000, Some 8000)
  else if decide (tier = 480) then (500, Some 4000)
  else (0, None).

Definition sizeFitScore (tier size : Z) : Z :=
  match idealBounds tier with
  | (lo, Some hi) => Z.max 0 (Z.max (lo - size) (size - hi))
  | (lo, None) => Z.max 0 (lo - size)
  end.

Section Ranking.
Variable parseQuality : string -> Z.
Variable parseSize : string -> Z.

Definition tierOf (x : Stream) : Z := parseQuality (s_name x).
Definition sizeOf (x : Stream) : Z := parseSize (s_name x).
Definition scoreOf (x : Stream) : Z := sizeFitScore (tierOf x) (sizeOf x).

(** [a] may stand before [b] in the ranking. *)
Definition rankedBefore (a b : Stream) : Prop :=
  tierOf b < tierOf a \/
  (tierOf a = tierOf b /\ scoreOf a < scoreOf b) \/
  (tierOf a = tierOf b /\ scoreOf a = scoreOf b /\ sizeOf b <= sizeOf a).

#[global] Instance rankedBefore_dec a b : Decision (rankedBefore a b).
Proof. unfold rankedBefore. apply _. Defined.
End Ranking.

(** Two elements the order does not tell apart. *)
Definition tied {A : Type} (R : relation A) (x y : A) : Prop := R x y /\ R y x.

(** ** Provider outcomes *)

(** The ways a provider fails to give results. *)
Inductive Failing : Outcome -> Prop :=
  | Failing_exception msg : Failing (Rejected msg)
  | Failing_timeout : Failing TimedOut
  | Failing_status status body : Failing (Responded false status body)
  | Failing_json status : Failing (Responded true status NotJson)
  | Failing_shape status : Failing (Responded true status (Json NoResults))
  | Failing_not_array status n : Failing (Responded true status (Json (NotAnArray n)))
  | Failing_empty status : Failing (Responded true status (Json (Results []))).


(** ** The slots of [Promise.all] *)

(** What holds of the slots while promises are still pending: a pending
    promise has an empty slot, every other slot holds its promise's
    value. *)
Definition slotsInv {A : Type} (promises : list A) (pending : list (nat * A))
    (values : list (option A)) : Prop :=
  length values = length promises /\
  NoDup pending.*1 /\
  (forall i v, (i, v) ∈ pending -> promises !! i = Some v /\ values !! i = Some None) /\
  (forall i v, promises !! i = Some v -> i ∉ pending.*1 -> values !! i = Some (Some v)).

(** ** Sample data *)

Definition rawResult (magnet : string) (title : option string) : RawResult :=
  {| magnetLink := Some magnet; title := title; filename := None;
     quality := None; size := None; source := None |}.

(** A candidate known by its file name only. *)
Definition titled (filename : string) : Candidate :=
  {| c_hash := "00"; c_magnetLink := "magnet:?xt=urn:btih:00";
     c_filename := filename; c_websiteTitle := filename;
     c_quality := ""; c_size := ""; c_source := "Unknown" |}.

(** A network on which every provider answers with the same results. *)
Definition answering (results : list RawResult) (url : string) : Outcome :=
  Responded true 200 (Json (Results results)).

(** A network on which no provider answers. *)
Definition silent (url : string) : Outcome := TimedOut.

(** A stream known by its name only, and a reading of names: the tier is
    the resolution the name mentions, the size the length of the name. *)
Definition named (name : string) : Stream :=
  {| s_name := name; s_title := name; s_url := ""; s_infoHash := "";
     s_notWebReady := true |}.

Definition sampleQuality (name : string) : Z :=
  if Str.includes "2160" name then 2160
  else if Str.includes "1080" name then 1080
  else if Str.includes "720" name then 720
  else if Str.includes "480" name then 480
  else 0.

Definition sampleSize (name : string) : Z := 1000 * Z.of_nat (String.length name).

(** A table with one provider, and four results of which the third repeats
    the hash of the first in another letter case. *)
Definition oneProvider : list Source :=
  [{| key := "p"; url := "https://p.example"; name := "P" |}].

Definition fourResults : list RawResult :=
  [rawResult "magnet:?xt=urn:btih:AA11&dn=a" (Some "Movie 720p 900 MB");
   rawResult "magnet:?xt=urn:btih:bb22&dn=b" (Some "Movie 2160p 20 GB");
   rawResult "magnet:?xt=urn:BTIH:aa11&dn=c" (Some "Movie 1080p 4 GB");
   rawResult "magnet:?xt=urn:btih:cc33&dn=d" (Some "Movie 1080p 4 GB")].

Definition fourEpisodes : list RawResult :=
  [rawResult "magnet:?xt=urn:btih:aa" (Some "Show.S01E02.720p");
   rawResult "magnet:?xt=urn:btih:bb" (Some "Show.S01E03.720p");
   rawResult "magnet:?xt=urn:btih:cc" (Some "Show s1 e2");
   rawResult "magnet:?xt=urn:btih:dd" (Some "Show s1 e2 e3")].

(** ** Size tokens *)



(** ** Hashes and escapes *)

(** [[0-9a-f]] *)
Definition isLowerHex (c : ascii) : bool := Char.isDigit c || Char.between 97 102 c.

(** The value of a hexadecimal digit written by [Char.hexDigit]. *)
Definition unhex (c : ascii) : N :=
  if Char.isDigit c then (Char.code c - 48)%N else (Char.code c - 55)%N.

(** Reading [%XX] back. *)
Fixpoint unescape (s : string) : string :=
  match s with
  | EmptyString => EmptyString
  | String c r =>
      if Ascii.eqb c "%" then
        match r with
        | String h (String l r') => String (ascii_of_N (16 * unhex h + unhex l)) (unescape r')
        | _ => String c (unescape r)
        end
      else String c (unescape r)
  end.

(** What [encodeURIComponent] may write. *)
Definition isEscaped (c : ascii) : bool := Char.isUnreserved c || Ascii.eqb c "%".

(** ** Requested numbers *)




(** ** Ends of a text *)




(** * Facts about the program *)

(** ** Runs of the program *)

Example search_btih :
  Regex.search Regex.btih "magnet:?xt=urn:BTIH:ABCdef0123&dn=x" = Some "ABCdef0123".
Proof. reflexivity. Qed.

Example search_quality :
  Regex.search Regex.quality "Movie.12345p.x" = Some "2345p".
Proof. reflexivity. Qed.

Example search_size :
  Regex.search Regex.size "Movie 1.45 gb x" = Some "1.45 gb".
Proof. reflexivity. Qed.

Example matchAll_e :
  Regex.matchAll (Regex.letterDigits "e") "show s01 e100 e7" = ["e10"; "e7"].
Proof. reflexivity. Qed.

Example parseInt_ex :
  parseInt " -0x1F" = Int (-31) /\ parseInt "12abc" = Int 12 /\ parseInt "x" = NaN.
Proof. repeat split. Qed.

Example dedupe_run :
  map (fun c => (c_hash c, c_quality c, c_size c)) (dedupe fourResults)
  = [("aa11", "720p", "900 MB"); ("bb22", "2160p", "20 GB"); ("cc33", "1080p", "4 GB")].
Proof. vm_compute. reflexivity. Qed.

Example getStreams_series_run :
  snd (getStreams oneProvider [] (answering fourEpisodes) "series" "tt1" (Some "1") (Some "2"))
  = Normal (filter (fun c => c_hash c = "aa" \/ c_hash c = "cc")
              (dedupe (map (withSource {| key := "p"; url := "https://p.example"; name := "P" |})
                         fourEpisodes))).
Proof. vm_compute. reflexivity. Qed.

Example streamRoute_run :
  map s_infoHash
    (snd (streamRoute oneProvider [] (answering fourResults) (fun _ => [])
            sampleQuality sampleSize "movie" "tt1"))
  = ["bb22"; "cc33"; "aa11"] /\
  fst (streamRoute oneProvider [] (answering fourResults) (fun _ => [])
         sampleQuality sampleSize "series" "tmdb-7:1:2")
  = ["https://p.example/api/search?type=series&query=7%3A1%3A2"].
Proof. split; vm_compute; reflexivity. Qed.


(** ** Characters and strings *)

Ltac char_cases c :=
  destruct c as [[] [] [] [] [] [] [] []]; vm_compute; try congruence; auto.

Lemma isDigit_inv c :
  Char.isDigit c = true ->
  c ∈ ["0"; "1"; "2"; "3"; "4"; "5"; "6"; "7"; "8"; "9"]%char.
Proof.
  destruct c as [[] [] [] [] [] [] [] []]; vm_compute; try congruence;
    intros _; set_solver.
Qed.

Lemma eqi_not_digit l c :
  Char.isDigit l = false -> Char.isUpper l = false ->
  Char.eqi l c = true -> Char.isDigit c = false.
Proof.
  unfold Char.eqi, Char.toLower. intros Hd Hu. rewrite Hu.
  destruct (Char.isUpper c) eqn:Hc.
  - intros _. revert Hc. char_cases c.
  - intros ->%Ascii.eqb_eq. done.
Qed.

Lemma append_nil_l s : "" +:+ s = s.
Proof. reflexivity. Qed.

Lemma append_cons c s t : String c s +:+ t = String c (s +:+ t).
Proof. reflexivity. Qed.

(** ** The search loop *)

Section Search.
Context {A : Type} (m : string -> option A).

Lemma search_Some s r :
  Regex.search m s = Some r <->
  exists n, (n <= String.length s)%nat /\ m (Str.drop n s) = Some r /\
            forall k, (k < n)%nat -> m (Str.drop k s) = None.
Proof.
  induction s as [|c s IH]; simpl.
  - destruct (m "") as [x|] eqn:Hm.
    + split.
      * intros [= ->]. exists 0%nat. repeat split; [lia|done|lia].
      * intros ([|n] & Hn & Hr & _); simpl in *; congruence.
    + split; [done|]. intros ([|n] & Hn & Hr & _); simpl in *; congruence.
  - destruct (m (String c s)) as [x|] eqn:Hm.
    + split.
      * intros [= ->]. exists 0%nat. repeat split; [lia|done|lia].
      * intros ([|n] & Hn & Hr & Hk); simpl in *; [congruence|].
        specialize (Hk 0%nat ltac:(lia)). simpl in Hk. congruence.
    + rewrite IH. split.
      * intros (n & Hn & Hr & Hk). exists (S n). repeat split; [lia|done|].
        intros [|k] ?; simpl; [done|]. apply Hk. lia.
      * intros ([|n] & Hn & Hr & Hk); simpl in *; [congruence|].
        exists n. repeat split; [lia|done|].
        intros k ?. apply (Hk (S k)). lia.
Qed.

Lemma search_None s :
  Regex.search m s = None <-> forall n, m (Str.drop n s) = None.
Proof.
  induction s as [|c s IH]; simpl.
  - destruct (m "") as [x|] eqn:Hm.
    + split; [done|]. intros H. specialize (H 0%nat). simpl in H. congruence.
    + split; [|done]. intros _ [|n]; done.
  - destruct (m (String c s)) as [x|] eqn:Hm.
    + split; [done|]. intros H. specialize (H 0%nat). simpl in H. congruence.
    + rewrite IH. split.
      * intros H [|n]; simpl; [done|apply H].
      * intros H n. apply (H (S n)).
Qed.
End Search.

(** ** The pieces of the patterns *)

Lemma lit_i_char a s t r :
  Regex.lit_i (String a "") s = Some (t, r) <->
  exists b, s = String b r /\ Char.eqi a b = true /\ t = String b "".
Proof.
  destruct s as [|b s]; simpl.
  - split; [done|]. by intros (b & ? & _).
  - destruct (Char.eqi a b) eqn:Hab.
    + split.
      * intros [= <- <-]. eauto.
      * intros (b' & [= <- <-] & _ & ->). done.
    + split; [done|]. intros (b' & [= <- <-] & ? & _). congruence.
Qed.

Lemma digits_sound n s t r :
  Regex.digits n s = Some (t, r) ->
  s = t +:+ r /\ String.length t = n /\ Str.all Char.isDigit t = true.
Proof.
  revert s t r. induction n as [|n IH]; intros s t r; simpl.
  - by intros [= <- <-].
  - destruct s as [|c s]; [done|].
    destruct (Char.isDigit c) eqn:Hc; [|done].
    destruct (Regex.digits n s) as [[t' r']|] eqn:Hd; [|done].
    intros [= <- <-]. apply IH in Hd as (-> & <- & Hall).
    rewrite append_cons. simpl. by rewrite Hc, Hall.
Qed.

Lemma digits_complete t r :
  Str.all Char.isDigit t = true ->
  Regex.digits (String.length t) (t +:+ r) = Some (t, r).
Proof.
  induction t as [|c t IH]; simpl; [done|].
  intros [Hc Ht]%andb_true_iff. rewrite Hc, IH; done.
Qed.

Lemma oneOrTwoDigits_inv d :
  oneOrTwoDigits d ->
  (exists c, d = String c "" /\ Char.isDigit c = true) \/
  (exists c1 c2, d = String c1 (String c2 "") /\ Char.isDigit c1 = true /\ Char.isDigit c2 = true).
Proof.
  intros [Hall [Hl|Hl]].
  - destruct d as [|c [|]]; try done. left. exists c. simpl in Hall.
    by rewrite andb_true_r in Hall.
  - destruct d as [|c1 [|c2 [|]]]; try done. right. exists c1, c2.
    simpl in Hall. rewrite andb_true_r in Hall.
    by apply andb_true_iff in Hall as [? ?].
Qed.

Lemma digits12_Some s t r :
  Regex.digits12 s = Some (t, r) <->
  s = t +:+ r /\ oneOrTwoDigits t /\ (String.length t = 1%nat -> startsWithDigit r = false).
Proof.
  unfold Regex.digits12, Regex.orElse. split.
  - destruct (Regex.digits 2 s) as [[t2 r2]|] eqn:H2.
    + intros [= <- <-]. apply digits_sound in H2 as (-> & Hl & Hall).
      split; [done|]. split; [split; [done|by right]|]. intros; lia.
    + intros (-> & Hl & Hall)%digits_sound.
      split; [done|]. split; [split; [done|by left]|]. intros _.
      destruct t as [|c [|]]; try done. destruct r as [|c' r]; [done|]. simpl.
      destruct (Char.isDigit c') eqn:Hc'; [|done].
      simpl in H2, Hall. rewrite andb_true_r in Hall. rewrite Hall in H2. by rewrite Hc' in H2.
  - intros (-> & Hd & Hgreedy).
    destruct (oneOrTwoDigits_inv _ Hd) as [(c & -> & Hc)|(c1 & c2 & -> & Hc1 & Hc2)].
    + specialize (Hgreedy eq_refl).
      destruct r as [|c' r]; simpl; rewrite Hc; [done|].
      simpl in Hgreedy. by rewrite Hgreedy.
    + simpl. by rewrite Hc1, Hc2.
Qed.

(** ** [parseInt] on the captures *)

Lemma parseInt_oneOrTwoDigits d :
  oneOrTwoDigits d -> parseInt d = Int (Str.decimal d) /\ 0 <= Str.decimal d < 100.
Proof.
  intros [(c & -> & Hc)|(c1 & c2 & -> & Hc1 & Hc2)]%oneOrTwoDigits_inv.
  - apply isDigit_inv in Hc.
    repeat (apply elem_of_cons in Hc as [->|Hc]; [by vm_compute|]).
    by apply elem_of_nil in Hc.
  - apply isDigit_inv in Hc1, Hc2.
    repeat (apply elem_of_cons in Hc1 as [->|Hc1];
      [repeat (apply elem_of_cons in Hc2 as [->|Hc2]; [by vm_compute|]);
       by apply elem_of_nil in Hc2|]).
    by apply elem_of_nil in Hc1.
Qed.

(** ** The season and episode patterns find the tokens *)

Lemma sxxexx_tail_sound n r d1 d2 :
  Regex.sxxexx_tail n r = Some (d1, d2) ->
  exists le post,
    r = d1 +:+ String le (d2 +:+ post) /\ String.length d1 = n /\
    Str.all Char.isDigit d1 = true /\ Char.eqi "e" le = true /\
    oneOrTwoDigits d2 /\ (String.length d2 = 1%nat -> startsWithDigit post = false).
Proof.
  unfold Regex.sxxexx_tail. intros H. repeat case_match; simplify_eq.
  repeat match goal with
    | H : Regex.lit_i (String _ "") _ = Some _ |- _ =>
        apply lit_i_char in H as (? & -> & ? & ->)
    | H : Regex.digits _ _ = Some _ |- _ =>
        apply digits_sound in H as (-> & ? & ?)
    | H : Regex.digits12 _ = Some _ |- _ =>
        apply digits12_Some in H as (-> & ? & ?)
    end.
  eauto 10.
Qed.

Lemma sxxexx_tail_complete d1 le d2 post :
  Str.all Char.isDigit d1 = true -> Char.eqi "e" le = true ->
  oneOrTwoDigits d2 -> (String.length d2 = 1%nat -> startsWithDigit post = false) ->
  Regex.sxxexx_tail (String.length d1) (d1 +:+ String le (d2 +:+ post)) = Some (d1, d2).
Proof.
  intros Hd1 Hle Hd2 Hgreedy. unfold Regex.sxxexx_tail.
  rewrite digits_complete by done.
  assert (Regex.lit_i "e" (String le (d2 +:+ post)) = Some (String le "", d2 +:+ post)) as ->
    by (apply lit_i_char; eauto).
  assert (Regex.digits12 (d2 +:+ post) = Some (d2, post)) as ->
    by (by apply digits12_Some).
  done.
Qed.

Lemma sxxexx_sound t d1 d2 :
  Regex.sxxexx t = Some (d1, d2) ->
  oneOrTwoDigits d1 /\ oneOrTwoDigits d2 /\ CombinedToken t (Str.decimal d1, Str.decimal d2).
Proof.
  unfold Regex.sxxexx, Regex.orElse. intros H.
  destruct (Regex.lit_i "s" t) as [[t0 r]|] eqn:Hs; [|done].
  apply lit_i_char in Hs as (ls & -> & Hls & ->).
  assert (exists n, (n = 1 \/ n = 2)%nat /\ Regex.sxxexx_tail n r = Some (d1, d2))
    as (n & Hn & Htail).
  { destruct (Regex.sxxexx_tail 2 r) eqn:H2; simplify_eq; eauto. }
  apply sxxexx_tail_sound in Htail as (le & post & -> & Hl & Hd1 & Hle & Hd2 & Hgreedy).
  assert (oneOrTwoDigits d1) by (split; [done|lia]).
  split; [done|]. split; [done|]. by constructor.
Qed.

Lemma eqi_e_not_digit c : Char.eqi "e" c = true -> Char.isDigit c = false.
Proof. by apply eqi_not_digit. Qed.

Lemma eqi_s_not_digit c : Char.eqi "s" c = true -> Char.isDigit c = false.
Proof. by apply eqi_not_digit. Qed.

Lemma sxxexx_complete t ab :
  CombinedToken t ab ->
  exists d1 d2, Regex.sxxexx t = Some (d1, d2) /\ ab = (Str.decimal d1, Str.decimal d2).
Proof.
  intros [ls d1 le d2 post Hls Hd1 Hle Hd2 Hgreedy]. exists d1, d2. split; [|done].
  unfold Regex.sxxexx, Regex.orElse.
  assert (Regex.lit_i "s" (String ls (d1 +:+ String le (d2 +:+ post)))
          = Some (String ls "", d1 +:+ String le (d2 +:+ post))) as ->
    by (apply lit_i_char; eauto).
  destruct Hd1 as [Hall [Hl|Hl]].
  - assert (Regex.sxxexx_tail 2 (d1 +:+ String le (d2 +:+ post)) = None) as ->.
    { destruct d1 as [|c [|]]; try done. unfold Regex.sxxexx_tail. simpl.
      rewrite (eqi_e_not_digit le) by done. by destruct (Char.isDigit c). }
    rewrite <- Hl. by apply sxxexx_tail_complete.
  - rewrite <- Hl. by rewrite sxxexx_tail_complete.
Qed.

Lemma letterDigits_sound letter t x :
  Regex.letterDigits (String letter "") t = Some x ->
  exists l d post,
    t = String l (d +:+ post) /\ x = String l d /\ Char.eqi letter l = true /\
    oneOrTwoDigits d /\ (String.length d = 1%nat -> startsWithDigit post = false).
Proof.
  unfold Regex.letterDigits, Regex.matched, Regex.andThen. intros H.
  destruct (Regex.lit_i (String letter "") t) as [[a r]|] eqn:Hl; [|done].
  destruct (Regex.digits12 r) as [[d post]|] eqn:Hd; [|done].
  apply lit_i_char in Hl as (l & -> & Hl & ->).
  apply digits12_Some in Hd as (-> & Hd & Hgreedy).
  injection H as <-. exists l, d, post. done.
Qed.

Lemma letterDigits_complete letter t v :
  StandaloneToken letter t v ->
  exists l d, Regex.letterDigits (String letter "") t = Some (String l d) /\
              v = Str.decimal d.
Proof.
  intros [l d post Hl Hd Hgreedy]. exists l, d. split; [|done].
  unfold Regex.letterDigits, Regex.matched, Regex.andThen.
  assert (Regex.lit_i (String letter "") (String l (d +:+ post))
          = Some (String l "", d +:+ post)) as -> by (apply lit_i_char; eauto).
  assert (Regex.digits12 (d +:+ post) = Some (d, post)) as -> by (by apply digits12_Some).
  done.
Qed.

Lemma StandaloneToken_functional letter t v1 v2 :
  StandaloneToken letter t v1 -> StandaloneToken letter t v2 -> v1 = v2.
Proof.
  intros (l1 & d1 & H1 & ->)%letterDigits_complete (l2 & d2 & H2 & ->)%letterDigits_complete.
  congruence.
Qed.

Lemma AllTokens_functional letter t vs1 vs2 :
  AllTokens letter t vs1 -> AllTokens letter t vs2 -> vs1 = vs2.
Proof.
  intros H1. revert vs2.
  induction H1 as [|c rest v vs Hv _ IH|c rest vs Hno _ IH]; intros vs2 H2.
  - by inversion H2.
  - inversion H2 as [|? ? v' vs' Hv' Hrest|? ? ? Hno Hrest]; subst.
    + f_equal; [by eapply StandaloneToken_functional|by apply IH].
    + by destruct (Hno v).
  - inversion H2 as [|? ? v' vs' Hv' Hrest|? ? ? Hno' Hrest]; subst.
    + by destruct (Hno v').
    + by apply IH.
Qed.

(** The [g] loop jumps over the digits of a match; no token starts on a
    digit, so it finds the token of every position. *)
Lemma matchedNumbers_AllTokens letter :
  (forall c, Char.eqi letter c = true -> Char.isDigit c = false) ->
  forall post d,
    Str.all Char.isDigit d = true ->
    exists vs, matchedNumbers letter (String.length d) (d +:+ post) = Int <$> vs /\
               AllTokens letter (d +:+ post) vs.
Proof.
  intros Hletter. unfold matchedNumbers.
  assert (Hgen : forall t k d post,
    t = d +:+ post -> String.length d = k -> Str.all Char.isDigit d = true ->
    exists vs,
      map (fun m => parseInt (Str.removeFirst_i letter m))
        (Regex.matchAll_from (Regex.letterDigits (String letter "")) k t) = Int <$> vs /\
      AllTokens letter t vs).
  { induction t as [|c t IH]; intros k d post Ht Hk Hd.
    - exists []. split; [|constructor]. simpl. by destruct k.
    - destruct k as [|k].
      + destruct d; [|done]. rewrite append_nil_l in Ht. subst post.
        simpl. destruct (Regex.letterDigits (String letter "") (String c t)) as [a|] eqn:Hm.
        * apply letterDigits_sound in Hm as (l & dd & post & [= -> ->] & -> & Hl & Hdd & Hgreedy).
          destruct (IH (String.length dd) dd post) as (vs & Hvs & Htok);
            [done|done|by destruct Hdd|].
          exists (Str.decimal dd :: vs). split.
          -- simpl. rewrite Hl, Nat.sub_0_r, Hvs.
             by destruct (parseInt_oneOrTwoDigits dd Hdd) as [-> _].
          -- constructor; [by constructor|done].
        * destruct (IH 0%nat "" t) as (vs & Hvs & Htok); [done..|].
          exists vs. split; [done|]. apply AllTokens_skip; [|done].
          intros v (l & dd & Hm' & _)%letterDigits_complete. congruence.
      + destruct d as [|c' d]; [done|]. rewrite append_cons in Ht.
        injection Ht as <- ->. simpl in Hk, Hd.
        apply andb_true_iff in Hd as [Hc Hd].
        destruct (IH k d post) as (vs & Hvs & Htok); [done|lia|done|].
        exists vs. split; [done|]. apply AllTokens_skip; [|done].
        intros v Hv. inversion Hv as [? ? ? Heq]; subst.
        apply Hletter in Heq. congruence. }
  intros post d Hd. by eapply Hgen.
Qed.

Lemma matchAll_AllTokens letter text :
  (forall c, Char.eqi letter c = true -> Char.isDigit c = false) ->
  exists vs,
    map (fun m => parseInt (Str.removeFirst_i letter m))
      (Regex.matchAll (Regex.letterDigits (String letter "")) text) = Int <$> vs /\
    AllTokens letter text vs.
Proof. intros H. apply (matchedNumbers_AllTokens letter H text ""). done. Qed.

Lemma includes_one vs x :
  includes (Int <$> vs) (Int x) && (length (Int <$> vs) =? 1)%nat = true <-> vs = [x].
Proof.
  destruct vs as [|v [|]]; simpl; split; try done.
  - rewrite orb_false_r, andb_true_r. by intros ->%Z.eqb_eq.
  - intros [= ->]. by rewrite Z.eqb_refl.
  - rewrite andb_false_r. done.
Qed.

Lemma firstMatch_CombinedToken text ab :
  firstMatch CombinedToken text ab <->
  exists g1 g2, Regex.search Regex.sxxexx text = Some (g1, g2) /\
                ab = (Str.decimal g1, Str.decimal g2).
Proof.
  split.
  - intros (n & Hn & (g1 & g2 & Hm & ->)%sxxexx_complete & Hbefore).
    exists g1, g2. split; [|done]. apply search_Some. exists n.
    split; [done|]. split; [done|]. intros k Hk.
    destruct (Regex.sxxexx (Str.drop k text)) as [[d1 d2]|] eqn:Hm'; [|done].
    apply sxxexx_sound in Hm' as (_ & _ & Hm'). by destruct (Hbefore k _ Hk Hm').
  - intros (g1 & g2 & (n & Hn & Hm & Hbefore)%search_Some & ->).
    exists n. split; [done|]. split; [by apply sxxexx_sound|].
    intros k a' Hk (d1 & d2 & Hm' & _)%sxxexx_complete.
    rewrite Hbefore in Hm'; done.
Qed.

Lemma noMatch_CombinedToken text :
  noMatch CombinedToken text <-> Regex.search Regex.sxxexx text = None.
Proof.
  rewrite search_None. split.
  - intros Hno n. destruct (Regex.sxxexx (Str.drop n text)) as [[d1 d2]|] eqn:Hm; [|done].
    apply sxxexx_sound in Hm as (_ & _ & Hm). by destruct (Hno n _ Hm).
  - intros Hnone n a (d1 & d2 & Hm & _)%sxxexx_complete. by rewrite Hnone in Hm.
Qed.

Lemma titleMatches_policy title s e :
  titleMatches (Int s) (Int e) title = true <->
  firstMatch CombinedToken title (s, e) \/
  (noMatch CombinedToken title /\ AllTokens "s" title [s] /\ AllTokens "e" title [e]).
Proof.
  unfold titleMatches.
  destruct (Regex.search Regex.sxxexx title) as [[g1 g2]|] eqn:Hsearch.
  - pose proof Hsearch as (n & _ & Hm & _)%search_Some.
    apply sxxexx_sound in Hm as (Hg1 & Hg2 & _).
    destruct (parseInt_oneOrTwoDigits g1 Hg1) as [-> _].
    destruct (parseInt_oneOrTwoDigits g2 Hg2) as [-> _].
    simpl. rewrite andb_true_iff, !Z.eqb_eq. split.
    + intros [<- <-]. left. apply firstMatch_CombinedToken. eauto.
    + intros [(g1' & g2' & Hs' & Hab)%firstMatch_CombinedToken|[Hno _]].
      * by simplify_eq.
      * apply noMatch_CombinedToken in Hno. congruence.
  - destruct (matchAll_AllTokens "s" title eqi_s_not_digit) as (ss & -> & Hss).
    destruct (matchAll_AllTokens "e" title eqi_e_not_digit) as (es & -> & Hes).
    transitivity (ss = [s] /\ es = [e]).
    + rewrite <- !includes_one. rewrite !andb_true_iff. tauto.
    + split.
      * intros [-> ->]. right. by rewrite noMatch_CombinedToken.
      * intros [(g1' & g2' & Hs' & Hab)%firstMatch_CombinedToken|(_ & Hs & He)];
          [congruence|].
        split; by eapply AllTokens_functional.
Qed.

(** ** Leftmost matches of a pattern that decides a predicate *)

Section FirstMatch.
Context {A : Type} (m : string -> option A) (P : string -> A -> Prop).
Hypothesis m_decides : forall t a, m t = Some a <-> P t a.

Lemma firstMatch_search text a :
  firstMatch P text a <-> Regex.search m text = Some a.
Proof.
  rewrite search_Some. unfold firstMatch.
  split; intros (n & Hn & Hm & Hbefore); exists n; (split; [done|]);
    (split; [by apply m_decides|]).
  - intros k Hk. destruct (m (Str.drop k text)) as [a'|] eqn:Hm'; [|done].
    apply m_decides in Hm'. by destruct (Hbefore k a' Hk).
  - intros k a' Hk Hm'%m_decides. rewrite Hbefore in Hm'; done.
Qed.

Lemma noMatch_search text :
  noMatch P text <-> Regex.search m text = None.
Proof.
  rewrite search_None. unfold noMatch. split.
  - intros Hno n. destruct (m (Str.drop n text)) as [a|] eqn:Hm; [|done].
    apply m_decides in Hm. by destruct (Hno n a).
  - intros Hnone n a Hm%m_decides. by rewrite Hnone in Hm.
Qed.
End FirstMatch.

(** ** Literals under the [i] flag *)

Lemma append_assoc s t u : (s +:+ t) +:+ u = s +:+ (t +:+ u).
Proof. induction s as [|c s IH]; [done|]. by rewrite !append_cons, IH. Qed.

Lemma toLowerCase_cons c s :
  Str.toLowerCase (String c s) = String (Char.toLower c) (Str.toLowerCase s).
Proof. reflexivity. Qed.

Lemma lit_i_sound p s t r :
  Regex.lit_i p s = Some (t, r) ->
  s = t +:+ r /\ Str.toLowerCase t = Str.toLowerCase p.
Proof.
  revert s t r. induction p as [|a p IH]; intros s t r; simpl.
  - by intros [= <- <-].
  - destruct s as [|b s]; [done|]. unfold Char.eqi.
    destruct (Ascii.eqb_spec (Char.toLower a) (Char.toLower b)) as [Hab|Hab]; [|done].
    destruct (Regex.lit_i p s) as [[t' r']|] eqn:Hl; [|done].
    intros [= <- <-]. apply IH in Hl as [-> Ht'].
    split; [done|]. rewrite !toLowerCase_cons. congruence.
Qed.

Lemma lit_i_complete p t r :
  Str.toLowerCase t = Str.toLowerCase p -> Regex.lit_i p (t +:+ r) = Some (t, r).
Proof.
  revert t. induction p as [|a p IH]; intros [|b t]; try done.
  rewrite !toLowerCase_cons. intros [= Hb Ht]. simpl.
  unfold Char.eqi. rewrite <- Hb, Ascii.eqb_refl, IH; done.
Qed.

Lemma lit_i_Some p s t r :
  Regex.lit_i p s = Some (t, r) <->
  s = t +:+ r /\ Str.toLowerCase t = Str.toLowerCase p.
Proof.
  split; [apply lit_i_sound|]. intros [-> Ht]. by apply lit_i_complete.
Qed.

(** ** The quality pattern finds the quality tokens *)

Lemma resolution_sound n t q post :
  (n = 3 \/ n = 4)%nat ->
  Regex.andThen (Regex.digits n) (Regex.lit_i "p") t = Some (q, post) ->
  t = q +:+ post /\ resolutionToken q.
Proof.
  intros Hn. unfold Regex.andThen.
  destruct (Regex.digits n t) as [[d r]|] eqn:Hd; [|done].
  destruct (Regex.lit_i "p" r) as [[p post']|] eqn:Hp; [|done].
  intros [= <- <-]. apply digits_sound in Hd as (-> & Hl & Hd).
  apply lit_i_char in Hp as (b & -> & Hb & ->).
  split; [by rewrite append_assoc|].
  exists d, b. repeat split; try done. lia.
Qed.

Lemma word_sound w t q post :
  w ∈ ["4k"; "uhd"; "hdts"; "cam"] ->
  Regex.lit_i w t = Some (q, post) ->
  t = q +:+ post /\ wordToken q.
Proof.
  intros Hw [-> Hq]%lit_i_Some. split; [done|].
  unfold wordToken. rewrite Hq.
  repeat (apply elem_of_cons in Hw as [->|Hw]; [set_solver|]). set_solver.
Qed.

Lemma quality_sound t q : Regex.quality t = Some q -> QualityToken t q.
Proof.
  unfold Regex.quality, Regex.matched, Regex.orElse.
  destruct (Regex.andThen (Regex.digits 4) (Regex.lit_i "p") t) as [[q' post]|] eqn:H4.
  { intros [= <-]. apply resolution_sound in H4 as [-> ?]; [|lia]. constructor; auto. }
  destruct (Regex.andThen (Regex.digits 3) (Regex.lit_i "p") t) as [[q' post]|] eqn:H3.
  { intros [= <-]. apply resolution_sound in H3 as [-> ?]; [|lia]. constructor; auto. }
  destruct (Regex.lit_i "4k" t) as [[q' post]|] eqn:Hw1.
  { intros [= <-]. apply word_sound in Hw1 as [-> ?]; [|set_solver]. constructor; auto. }
  destruct (Regex.lit_i "uhd" t) as [[q' post]|] eqn:Hw2.
  { intros [= <-]. apply word_sound in Hw2 as [-> ?]; [|set_solver]. constructor; auto. }
  destruct (Regex.lit_i "HDTS" t) as [[q' post]|] eqn:Hw3.
  { intros [= <-]. apply lit_i_Some in Hw3 as [-> Hq]. constructor. right.
    unfold wordToken. rewrite Hq. set_solver. }
  destruct (Regex.lit_i "CAM" t) as [[q' post]|] eqn:Hw4; [|done].
  intros [= <-]. apply lit_i_Some in Hw4 as [-> Hq]. constructor. right.
  unfold wordToken. rewrite Hq. set_solver.
Qed.

Lemma toLower_isDigit c : Char.isDigit (Char.toLower c) = Char.isDigit c.
Proof. char_cases c. Qed.

Lemma digits_None_not_digit n pre c post :
  (String.length pre < n)%nat -> Char.isDigit c = false ->
  Regex.digits n (pre +:+ String c post) = None.
Proof.
  revert n. induction pre as [|b pre IH]; intros [|n] Hl Hc; simpl in *; try lia.
  - by rewrite Hc.
  - rewrite IH by (lia || done). by destruct (Char.isDigit b).
Qed.

Lemma lit_i_first_ne a p b s :
  Char.toLower a <> Char.toLower b -> Regex.lit_i (String a p) (String b s) = None.
Proof.
  intros Hne. simpl. unfold Char.eqi.
  by destruct (Ascii.eqb_spec (Char.toLower a) (Char.toLower b)).
Qed.

Lemma resolution_None n pre c post :
  (String.length pre < n)%nat -> Char.isDigit c = false ->
  Regex.andThen (Regex.digits n) (Regex.lit_i "p") (pre +:+ String c post) = None.
Proof.
  intros Hl Hc. unfold Regex.andThen. by rewrite digits_None_not_digit.
Qed.

Lemma resolution_complete d p post :
  Str.all Char.isDigit d = true -> Char.eqi "p" p = true ->
  Regex.andThen (Regex.digits (String.length d)) (Regex.lit_i "p") (d +:+ String p post)
  = Some (d +:+ String p "", post).
Proof.
  intros Hd Hp. unfold Regex.andThen. rewrite digits_complete by done.
  assert (Regex.lit_i "p" (String p post) = Some (String p "", post)) as ->
    by (apply lit_i_char; eauto).
  done.
Qed.

Lemma eqi_p_not_digit c : Char.eqi "p" c = true -> Char.isDigit c = false.
Proof. by apply eqi_not_digit. Qed.

Lemma resolution_None_1 n c s :
  Char.isDigit c = false ->
  Regex.andThen (Regex.digits (S n)) (Regex.lit_i "p") (String c s) = None.
Proof. intros Hc. by apply (resolution_None (S n) "" c s); [simpl; lia|]. Qed.

Lemma resolution_None_2 n c1 c2 s :
  Char.isDigit c2 = false ->
  Regex.andThen (Regex.digits (S (S n))) (Regex.lit_i "p") (String c1 (String c2 s)) = None.
Proof. intros Hc. by apply (resolution_None (S (S n)) (String c1 "") c2 s); [simpl; lia|]. Qed.

Lemma toLower_not_digit c l : Char.toLower c = l -> Char.isDigit l = false -> Char.isDigit c = false.
Proof. intros <-. by rewrite toLower_isDigit. Qed.

Lemma quality_complete t q : QualityToken t q -> Regex.quality t = Some q.
Proof.
  intros [q' post [(d & p & -> & Hd & Hl & Hp)|Hword]];
    unfold Regex.quality, Regex.matched, Regex.orElse.
  - rewrite append_assoc, append_cons, append_nil_l. destruct Hl as [Hl|Hl].
    + rewrite (resolution_None 4) by (lia || by apply eqi_p_not_digit).
      rewrite <- Hl. by rewrite resolution_complete.
    + rewrite <- Hl. by rewrite resolution_complete.
  - unfold wordToken in Hword.
    repeat (apply elem_of_cons in Hword as [Hw|Hword]); [..|by apply elem_of_nil in Hword].
    + destruct q' as [|c1 [|c2 q']]; try done.
      rewrite !toLowerCase_cons in Hw. injection Hw as H1 H2 H3.
      assert (Regex.lit_i "4k" (String c1 (String c2 q') +:+ post)
              = Some (String c1 (String c2 q'), post)) as Hlit
        by (apply lit_i_complete; by rewrite !toLowerCase_cons, H1, H2, H3).
      rewrite !append_cons in *.
      rewrite !resolution_None_2 by (by eapply toLower_not_digit).
      by rewrite Hlit.
    + destruct q' as [|c1 q']; try done.
      rewrite !toLowerCase_cons in Hw. injection Hw as H1 H2.
      assert (Regex.lit_i "uhd" (String c1 q' +:+ post) = Some (String c1 q', post)) as Hlit
        by (apply lit_i_complete; by rewrite !toLowerCase_cons, H1, H2).
      rewrite !append_cons in *.
      rewrite !resolution_None_1 by (by eapply toLower_not_digit).
      rewrite (lit_i_first_ne "4") by (by rewrite H1).
      by rewrite Hlit.
    + destruct q' as [|c1 q']; try done.
      rewrite !toLowerCase_cons in Hw. injection Hw as H1 H2.
      assert (Regex.lit_i "HDTS" (String c1 q' +:+ post) = Some (String c1 q', post)) as Hlit
        by (apply lit_i_complete; by rewrite !toLowerCase_cons, H1, H2).
      rewrite !append_cons in *.
      rewrite !resolution_None_1 by (by eapply toLower_not_digit).
      rewrite (lit_i_first_ne "4"), (lit_i_first_ne "u") by (by rewrite H1).
      by rewrite Hlit.
    + destruct q' as [|c1 q']; try done.
      rewrite !toLowerCase_cons in Hw. injection Hw as H1 H2.
      assert (Regex.lit_i "CAM" (String c1 q' +:+ post) = Some (String c1 q', post)) as Hlit
        by (apply lit_i_complete; by rewrite !toLowerCase_cons, H1, H2).
      rewrite !append_cons in *.
      rewrite !resolution_None_1 by (by eapply toLower_not_digit).
      rewrite (lit_i_first_ne "4"), (lit_i_first_ne "u"), (lit_i_first_ne "H")
        by (by rewrite H1).
      by rewrite Hlit.
Qed.

Lemma quality_decides t q : Regex.quality t = Some q <-> QualityToken t q.
Proof. split; [apply quality_sound|apply quality_complete]. Qed.

(** ** The hash of a magnet link *)

Lemma span_sound P s a r :
  Str.span P s = (a, r) ->
  s = a +:+ r /\ Str.all P a = true /\
  match r with String c _ => P c = false | EmptyString => True end.
Proof.
  revert a r. induction s as [|c s IH]; intros a r; simpl.
  - by intros [= <- <-].
  - destruct (P c) eqn:Hc.
    + destruct (Str.span P s) as [a' r'] eqn:Hspan. intros [= <- <-].
      destruct (IH a' r' eq_refl) as (-> & Ha' & Hr').
      rewrite append_cons. simpl. by rewrite Hc, Ha'.
    + intros [= <- <-]. by rewrite Hc.
Qed.

Lemma span_complete P a r :
  Str.all P a = true ->
  match r with String c _ => P c = false | EmptyString => True end ->
  Str.span P (a +:+ r) = (a, r).
Proof.
  intros Ha Hr. induction a as [|c a IH].
  - rewrite append_nil_l. destruct r as [|c r]; [done|]. simpl. by rewrite Hr.
  - simpl in Ha. apply andb_true_iff in Ha as [Hc Ha].
    rewrite append_cons. simpl. by rewrite Hc, IH.
Qed.

Lemma span_spec P s a r :
  Str.span P s = (a, r) <->
  s = a +:+ r /\ Str.all P a = true /\
  match r with String c _ => P c = false | EmptyString => True end.
Proof.
  split; [apply span_sound|]. intros (-> & Ha & Hr). by apply span_complete.
Qed.

Lemma nonEmpty_true s : Str.nonEmpty s = true <-> s <> "".
Proof. by destruct s. Qed.

Lemma btih_decides t h : Regex.btih t = Some h <-> BtihHash t h.
Proof.
  unfold Regex.btih. split.
  - destruct (Regex.lit_i "btih:" t) as [[tag r]|] eqn:Hlit; [|done].
    destruct (Str.span Char.isHex r) as [h' post] eqn:Hspan.
    destruct (Str.nonEmpty h') eqn:Hne; [|done]. intros [= <-].
    apply lit_i_Some in Hlit as [-> Htag].
    apply span_spec in Hspan as (-> & Hh & Hpost).
    constructor; [done|done|by apply nonEmpty_true|].
    destruct post; [done|]. done.
  - intros [tag h' post Htag Hh Hne Hpost].
    rewrite (lit_i_complete "btih:") by done.
    assert (Str.span Char.isHex (h' +:+ post) = (h', post)) as ->.
    { apply span_spec. split; [done|]. split; [done|]. by destruct post. }
    by apply nonEmpty_true in Hne as ->.
Qed.

Lemma toLowerCase_nonEmpty s : Str.nonEmpty (Str.toLowerCase s) = Str.nonEmpty s.
Proof. by destruct s. Qed.

Lemma extractHash_Some magnet h :
  extractHash magnet = Some h <->
  exists h0, firstMatch BtihHash magnet h0 /\ h = Str.toLowerCase h0.
Proof.
  unfold extractHash.
  destruct (Regex.search Regex.btih magnet) as [h0|] eqn:Hs; simpl.
  - apply (firstMatch_search _ _ btih_decides) in Hs. split.
    + intros [= <-]. eauto.
    + intros (h1 & H1 & ->). apply (firstMatch_search _ _ btih_decides) in Hs, H1.
      congruence.
  - split; [done|]. intros (h1 & H1 & _).
    apply (firstMatch_search _ _ btih_decides) in H1. congruence.
Qed.

Lemma extractHash_nonEmpty magnet h : extractHash magnet = Some h -> Str.nonEmpty h = true.
Proof.
  intros (h0 & (n & _ & Hh & _) & ->)%extractHash_Some.
  rewrite toLowerCase_nonEmpty. inversion Hh. by apply nonEmpty_true.
Qed.

(** Letter case does not change the hash. *)








(** ** Deduplication *)

Lemma dedupeStep_keyOf seen unique r :
  dedupeStep (seen, unique) r =
  match keyOf r with
  | Some h =>
      if decide (h ∈ seen) then (seen, unique)
      else ({[h]} ∪ seen, unique ++ [candidateOf r])
  | None => (seen, unique)
  end.
Proof.
  unfold dedupeStep, keyOf, candidateOf, keyOf, magnetOf, truthy.
  destruct (magnetLink r) as [magnet|]; simpl; [|done].
  destruct (Str.nonEmpty magnet); simpl; [|done].
  destruct (extractHash magnet) as [h|] eqn:Hh; simpl; [|done].
  by rewrite (extractHash_nonEmpty _ _ Hh).
Qed.

Lemma candidateOf_hash r h : keyOf r = Some h -> c_hash (candidateOf r) = h.
Proof. unfold candidateOf. by intros ->. Qed.

Lemma dedupeRun_snoc streams r :
  dedupeRun (streams ++ [r]) = dedupeStep (dedupeRun streams) r.
Proof. unfold dedupeRun. by rewrite fold_left_app. Qed.

(** [seenMagnets] holds the hashes of the candidates pushed so far. *)
Lemma dedupeRun_seen streams h :
  h ∈ (dedupeRun streams).1 <-> h ∈ c_hash <$> (dedupeRun streams).2.
Proof.
  induction streams as [|r streams IH] using rev_ind.
  - simpl. set_solver.
  - rewrite dedupeRun_snoc. destruct (dedupeRun streams) as [seen unique].
    rewrite dedupeStep_keyOf. destruct (keyOf r) as [h'|] eqn:Hk; [|done].
    case_decide; [done|]. cbn [fst snd] in *.
    rewrite fmap_app, elem_of_app, elem_of_union, elem_of_singleton, IH.
    rewrite list_fmap_singleton, list_elem_of_singleton, (candidateOf_hash r h' Hk).
    tauto.
Qed.

Lemma dedupe_snoc streams r :
  dedupe (streams ++ [r]) =
  dedupe streams ++
  match keyOf r with
  | Some h => if decide (h ∈ c_hash <$> dedupe streams) then [] else [candidateOf r]
  | None => []
  end.
Proof.
  unfold dedupe. fold (dedupeRun (streams ++ [r])) (dedupeRun streams).
  rewrite dedupeRun_snoc. pose proof (dedupeRun_seen streams) as Hseen.
  destruct (dedupeRun streams) as [seen unique]. rewrite dedupeStep_keyOf.
  destruct (keyOf r) as [h|]; simpl in *; [|by rewrite app_nil_r].
  destruct (decide (h ∈ seen)) as [Hin|Hin]; rewrite Hseen in Hin.
  - rewrite decide_True by done. by rewrite app_nil_r.
  - by rewrite decide_False by done.
Qed.


Lemma dedupe_NoDup streams : NoDup (c_hash <$> dedupe streams).
Proof.
  induction streams as [|r streams IH] using rev_ind.
  - unfold dedupe. simpl. constructor.
  - rewrite dedupe_snoc, fmap_app. destruct (keyOf r) as [h|] eqn:Hk.
    + case_decide as Hin; [by rewrite fmap_nil, app_nil_r|].
      rewrite list_fmap_singleton, (candidateOf_hash r h Hk).
      apply NoDup_app. split; [done|]. split; [|apply NoDup_singleton].
      by intros x Hx ->%list_elem_of_singleton.
    + by rewrite fmap_nil, app_nil_r.
Qed.

Lemma filter_none {A} (P : A -> Prop) `{forall x, Decision (P x)} (l : list A) :
  (forall x, x ∈ l -> ~ P x) -> filter P l = [].
Proof.
  induction l as [|x l IH]; intros Hl; [done|].
  rewrite filter_cons_False by (apply Hl; by left).
  apply IH. intros y Hy. apply Hl. by right.
Qed.



(** ** [Promise.all] does not depend on the order of settlement *)

Section PromiseAllFacts.
Context {A : Type}.
Implicit Types (promises : list A) (pending : list (nat * A))
  (values : list (option A)).

Lemma imap_pair_fst promises : (imap pair promises).*1 = seq 0 (length promises).
Proof.
  apply list_eq. intros i. rewrite list_lookup_fmap, list_lookup_imap.
  destruct (promises !! i) as [v|] eqn:Hi; simpl.
  - symmetry. apply lookup_seq. split; [done|]. by eapply lookup_lt_Some.
  - symmetry. apply lookup_ge_None. rewrite length_seq. by apply lookup_ge_None.
Qed.

Lemma slotsInv_init promises :
  slotsInv promises (imap pair promises) (replicate (length promises) None).
Proof.
  split; [|split; [|split]].
  - by rewrite length_replicate.
  - rewrite imap_pair_fst. apply NoDup_seq.
  - intros i v (j & y & [= -> ->] & H)%elem_of_lookup_imap. split; [done|].
    apply lookup_replicate_2. by eapply lookup_lt_Some.
  - intros i v H Hnot. exfalso. apply Hnot. apply list_elem_of_fmap.
    exists (i, v). split; [done|]. apply elem_of_lookup_imap. eauto.
Qed.

Lemma slotsInv_step promises pending values k i v :
  slotsInv promises pending values ->
  pending !! k = Some (i, v) ->
  slotsInv promises (delete k pending) (<[i := Some v]> values).
Proof.
  intros (Hlen & Hnd & Hpend & Hdone) Hk.
  pose proof (delete_Permutation _ _ _ Hk) as Hperm.
  assert (Hperm1 : pending.*1 ≡ₚ i :: (delete k pending).*1)
    by (by rewrite Hperm at 1).
  rewrite Hperm1 in Hnd. apply NoDup_cons in Hnd as [Hi Hnd].
  split; [|split; [|split]].
  - by rewrite length_insert.
  - done.
  - intros j w Hj.
    assert (Hin : (j, w) ∈ pending) by (rewrite Hperm; by right).
    destruct (Hpend j w Hin) as [Hp Hv]. split; [done|].
    assert (j ≠ i).
    { intros ->. apply Hi. apply list_elem_of_fmap. by exists (i, w). }
    by rewrite list_lookup_insert_ne.
  - intros j w Hj Hnot. destruct (decide (j = i)) as [->|Hne].
    + destruct (Hpend i v) as [Hv _]; [by eapply list_elem_of_lookup_2|].
      rewrite list_lookup_insert_eq.
      * congruence.
      * rewrite Hlen. by eapply lookup_lt_Some.
    + rewrite list_lookup_insert_ne; [|done]. apply Hdone; [done|].
      rewrite Hperm1. by intros [?|?]%elem_of_cons.
Qed.

Lemma settle_all promises n picks pending values :
  n = length pending ->
  slotsInv promises pending values ->
  settle n picks pending values = Some <$> promises.
Proof.
  revert picks pending values.
  induction n as [|n IH]; intros picks pending values Hn Hinv; simpl.
  - destruct pending; [|done].
    destruct Hinv as (Hlen & _ & _ & Hdone).
    apply list_eq. intros i. rewrite list_lookup_fmap.
    destruct (promises !! i) as [v|] eqn:Hi; simpl.
    + apply Hdone; [done|]. set_solver.
    + apply lookup_ge_None. rewrite Hlen. by apply lookup_ge_None.
  - assert (Hk : (hd 0%nat picks `mod` length pending < length pending)%nat)
      by (apply Nat.mod_upper_bound; lia).
    destruct (lookup_lt_is_Some_2 _ _ Hk) as [[i v] Hiv].
    rewrite Hiv. apply IH.
    + rewrite length_delete; [lia|eauto].
    + by eapply slotsInv_step.
Qed.

Lemma Promise_all_settled picks promises : Promise_all picks promises = promises.
Proof.
  unfold Promise_all.
  rewrite (settle_all promises); [| by rewrite length_imap | apply slotsInv_init].
  generalize promises. intros l.
  induction l as [|x l IH]; [done|]. cbn. by f_equal.
Qed.
End PromiseAllFacts.

Section SortFacts.
Context {A : Type} (compareFn : A -> A -> Z) (R : relation A).
Hypothesis before_R : forall x y, compareFn x y < 0 -> R x y.
Hypothesis not_before_R : forall x y, ~ compareFn x y < 0 -> R y x.
Hypothesis R_trans : Transitive R.

Lemma insertSorted_Permutation x l : insertSorted compareFn x l ≡ₚ x :: l.
Proof.
  induction l as [|y l IH]; simpl; [done|].
  destruct (compareFn x y <? 0); [done|].
  rewrite IH. apply Permutation_swap.
Qed.

Lemma sort_from_Permutation l acc :
  fold_left (fun acc x => insertSorted compareFn x acc) l acc ≡ₚ l ++ acc.
Proof.
  revert acc. induction l as [|x l IH]; intros acc; simpl; [done|].
  rewrite IH, insertSorted_Permutation. by rewrite Permutation_middle.
Qed.

Lemma sort_Permutation l : sort compareFn l ≡ₚ l.
Proof. unfold sort. by rewrite sort_from_Permutation, app_nil_r. Qed.

Lemma insertSorted_StronglySorted x l :
  StronglySorted R l -> StronglySorted R (insertSorted compareFn x l).
Proof.
  induction 1 as [|y l Hl IH Hy]; simpl.
  - repeat constructor.
  - destruct (Z.ltb_spec (compareFn x y) 0) as [Hlt|Hge].
    + constructor; [by constructor|].
      constructor; [by apply before_R|].
      eapply Forall_impl; [exact Hy|]. intros z Hz.
      by transitivity y; [apply before_R|].
    + constructor; [done|].
      rewrite insertSorted_Permutation.
      constructor; [|done]. apply not_before_R. lia.
Qed.

Lemma sort_from_StronglySorted l acc :
  StronglySorted R acc ->
  StronglySorted R (fold_left (fun acc x => insertSorted compareFn x acc) l acc).
Proof.
  revert acc. induction l as [|x l IH]; intros acc Hacc; simpl; [done|].
  by apply IH, insertSorted_StronglySorted.
Qed.

Lemma sort_StronglySorted l : StronglySorted R (sort compareFn l).
Proof. apply sort_from_StronglySorted. constructor. Qed.
End SortFacts.

(** ** A stable sort has one result *)

Section StableSort.
Context {A : Type} (compareFn : A -> A -> Z) (R : relation A).
Context `{!forall x y, Decision (R x y)}.
Hypothesis before_R : forall x y, compareFn x y < 0 -> R x y.
Hypothesis before_strict : forall x y, compareFn x y < 0 -> ~ R y x.
Hypothesis not_before_R : forall x y, ~ compareFn x y < 0 -> R y x.
Hypothesis R_trans : Transitive R.
Hypothesis R_total : forall x y, R x y \/ R y x.

Lemma tied_refl x : tied R x x.
Proof. by destruct (R_total x x). Qed.

Lemma filter_tied_insertSorted z x l :
  StronglySorted R l ->
  filter (tied R z) (insertSorted compareFn x l) = filter (tied R z) (l ++ [x]).
Proof.
  induction 1 as [|y l Hl IH Hy]; [done|].
  rewrite filter_app. cbn [insertSorted].
  destruct (Z.ltb_spec (compareFn x y) 0) as [Hlt|Hge].
  - destruct (decide (tied R z x)) as [Hzx|Hzx].
    + rewrite !(filter_cons_True _ x) by done.
      rewrite (filter_none (tied R z) (y :: l)); [done|].
      intros w Hw [Hzw Hwz]. destruct Hzx as [Hzx Hxz].
      apply (before_strict x y Hlt).
      apply elem_of_cons in Hw as [->|Hw].
      * by transitivity z.
      * rewrite Forall_forall in Hy. transitivity w; [by apply Hy|by transitivity z].
    + rewrite !(filter_cons_False _ x) by done. by rewrite app_nil_r.
  - rewrite !(filter_cons _ y), IH, filter_app.
    by destruct (decide (tied R z y)).
Qed.

Lemma filter_tied_sort_from z l acc :
  StronglySorted R acc ->
  filter (tied R z) (fold_left (fun acc x => insertSorted compareFn x acc) l acc)
  = filter (tied R z) (acc ++ l).
Proof.
  revert acc. induction l as [|x l IH]; intros acc Hacc; simpl.
  - by rewrite app_nil_r.
  - rewrite IH by (by apply (insertSorted_StronglySorted compareFn R)).
    rewrite filter_app, filter_tied_insertSorted by done.
    by rewrite <- filter_app, <- app_assoc.
Qed.

(** The sort keeps tied elements in the order they came in. *)
Lemma sort_stable z l :
  filter (tied R z) (sort compareFn l) = filter (tied R z) l.
Proof. apply (filter_tied_sort_from z l []). constructor. Qed.

(** Two sorted arrangements with the same tied elements in the same order
    are the same list. *)
Lemma stable_sorted_unique l1 l2 :
  StronglySorted R l1 -> StronglySorted R l2 ->
  (forall z, filter (tied R z) l1 = filter (tied R z) l2) ->
  l1 = l2.
Proof.
  intros Hl1. revert l2.
  induction Hl1 as [|a t1 Ht1 IH Ha]; intros l2 Hl2 Hsame.
  - destruct l2 as [|b t2]; [done|]. specialize (Hsame b).
    rewrite filter_cons_True in Hsame by apply tied_refl. done.
  - destruct l2 as [|b t2].
    { specialize (Hsame a). rewrite filter_cons_True in Hsame by apply tied_refl. done. }
    apply StronglySorted_inv in Hl2 as [Ht2 Hb].
    rewrite Forall_forall in Ha, Hb.
    assert (a ∈ b :: t2) as Ha2.
    { apply (proj1 (list_elem_of_filter (tied R a) _ a)). rewrite <- Hsame.
      rewrite filter_cons_True by apply tied_refl. by left. }
    assert (b ∈ a :: t1) as Hb1.
    { apply (proj1 (list_elem_of_filter (tied R b) _ b)). rewrite Hsame.
      rewrite filter_cons_True by apply tied_refl. by left. }
    assert (tied R a b) as Hab.
    { split.
      - apply elem_of_cons in Hb1 as [->|Hb1]; [apply tied_refl|by apply Ha].
      - apply elem_of_cons in Ha2 as [->|Ha2]; [apply tied_refl|by apply Hb]. }
    pose proof (Hsame a) as Hhead.
    rewrite filter_cons_True in Hhead by apply tied_refl.
    rewrite filter_cons_True in Hhead by done.
    injection Hhead as <- _. f_equal. apply IH; [done|].
    intros z. specialize (Hsame z). rewrite !filter_cons in Hsame.
    destruct (decide (tied R z a)); [by injection Hsame|done].
Qed.

Lemma sort_unique l out :
  StronglySorted R out ->
  (forall z, filter (tied R z) out = filter (tied R z) l) ->
  out = sort compareFn l.
Proof.
  intros Hout Hsame. apply stable_sorted_unique; [done| |].
  - by apply (sort_StronglySorted compareFn R).
  - intros z. by rewrite sort_stable.
Qed.
End StableSort.

Lemma StronglySorted_lookup {A} (R : relation A) l i j a b :
  StronglySorted R l -> l !! i = Some a -> l !! j = Some b -> (i < j)%nat -> R a b.
Proof.
  intros Hl. revert i j. induction Hl as [|x l Hl IH Hx]; intros i j Hi Hj Hij.
  - done.
  - destruct i as [|i], j as [|j]; simpl in *; try lia.
    + injection Hi as ->. rewrite Forall_forall in Hx.
      apply Hx. by eapply list_elem_of_lookup_2.
    + apply (IH i j); [done..|lia].
Qed.

Section RankingFacts.
Variable parseQuality : string -> Z.
Variable parseSize : string -> Z.

Lemma getIdealScore_sizeFit quality size :
  getIdealScore size (idealRange quality) = sizeFitScore quality size.
Proof.
  unfold getIdealScore, idealRange, idealSizeRanges, sizeFitScore, idealBounds.
  repeat (case_decide as Hq;
    [subst quality; simpl;
     repeat match goal with
     | |- context [Z.leb ?x ?y] => destruct (Z.leb_spec x y); simpl
     | |- context [Z.ltb ?x ?y] => destruct (Z.ltb_spec x y); simpl
     end; lia
    | apply Z.eqb_neq in Hq; rewrite Hq; clear Hq]).
  simpl. destruct (Z.leb_spec 0 size); lia.
Qed.

Lemma compareStreams_before a b :
  compareStreams parseQuality parseSize a b < 0 ->
  rankedBefore parseQuality parseSize a b.
Proof.
  unfold compareStreams, rankedBefore, scoreOf, tierOf, sizeOf.
  rewrite !getIdealScore_sizeFit.
  destruct (Z.eqb_spec (parseQuality (s_name a)) (parseQuality (s_name b))) as [->|Hq];
    simpl; [|lia].
  destruct (Z.eqb_spec (sizeFitScore (parseQuality (s_name b)) (parseSize (s_name a)))
              (sizeFitScore (parseQuality (s_name b)) (parseSize (s_name b)))); simpl; lia.
Qed.

Lemma compareStreams_not_before a b :
  ~ compareStreams parseQuality parseSize a b < 0 ->
  rankedBefore parseQuality parseSize b a.
Proof.
  unfold compareStreams, rankedBefore, scoreOf, tierOf, sizeOf.
  rewrite !getIdealScore_sizeFit.
  destruct (Z.eqb_spec (parseQuality (s_name a)) (parseQuality (s_name b))) as [->|Hq];
    simpl; [|lia].
  destruct (Z.eqb_spec (sizeFitScore (parseQuality (s_name b)) (parseSize (s_name a)))
              (sizeFitScore (parseQuality (s_name b)) (parseSize (s_name b)))); simpl; lia.
Qed.

Global Instance rankedBefore_trans : Transitive (rankedBefore parseQuality parseSize).
Proof.
  intros a b c. unfold rankedBefore, scoreOf.
  generalize (tierOf parseQuality a) (tierOf parseQuality b) (tierOf parseQuality c).
  intros ta tb tc Hab Hbc.
  destruct (decide (ta = tb)) as [->|]; [|destruct (decide (tb = tc)) as [->|]; lia].
  destruct (decide (tb = tc)) as [->|]; lia.
Qed.

Lemma rankedBefore_total a b :
  rankedBefore parseQuality parseSize a b \/ rankedBefore parseQuality parseSize b a.
Proof.
  unfold rankedBefore, scoreOf.
  generalize (tierOf parseQuality a) (tierOf parseQuality b).
  intros ta tb. destruct (decide (ta = tb)) as [->|]; lia.
Qed.

Lemma sortStreams_Permutation streams :
  sortStreams parseQuality parseSize streams ≡ₚ streams.
Proof. apply sort_Permutation. Qed.

Lemma compareStreams_strict a b :
  compareStreams parseQuality parseSize a b < 0 ->
  ~ rankedBefore parseQuality parseSize b a.
Proof.
  unfold compareStreams, rankedBefore, scoreOf, tierOf, sizeOf.
  rewrite !getIdealScore_sizeFit.
  destruct (Z.eqb_spec (parseQuality (s_name a)) (parseQuality (s_name b))) as [->|Hq];
    simpl; [|lia].
  destruct (Z.eqb_spec (sizeFitScore (parseQuality (s_name b)) (parseSize (s_name a)))
              (sizeFitScore (parseQuality (s_name b)) (parseSize (s_name b)))); simpl; lia.
Qed.

Lemma sortStreams_StronglySorted streams :
  StronglySorted (rankedBefore parseQuality parseSize)
    (sortStreams parseQuality parseSize streams).
Proof.
  apply sort_StronglySorted.
  - apply compareStreams_before.
  - apply compareStreams_not_before.
  - apply _.
Qed.
Lemma sortStreams_unique streams out :
  StronglySorted (rankedBefore parseQuality parseSize) out ->
  (forall z, filter (tied (rankedBefore parseQuality parseSize) z) out
             = filter (tied (rankedBefore parseQuality parseSize) z) streams) ->
  out = sortStreams parseQuality parseSize streams.
Proof.
  apply sort_unique.
  - apply compareStreams_before.
  - apply compareStreams_strict.
  - apply compareStreams_not_before.
  - apply _.
  - apply rankedBefore_total.
Qed.
End RankingFacts.

(** * The properties *)

(** ** Identifiers ([getIdType], [getStreams]) *)

Lemma getIdType_None id :
  getIdType id = None <->
  Str.startsWith "tt" id = false /\ Str.startsWith "tmdb-" id = false /\
  Regex.allDigits id = false.
Proof.
  unfold getIdType.
  destruct (Str.startsWith "tt" id), (Str.startsWith "tmdb-" id), (Regex.allDigits id);
    intuition congruence.
Qed.

Lemma recognizedShape_accepted id : recognizedShape id = true -> getIdType id <> None.
Proof.
  unfold recognizedShape, imdbShape, tmdbShape. rewrite getIdType_None.
  intros H (Htt & Htmdb & Hd). rewrite Htt, Htmdb, Hd in H. done.
Qed.

Lemma replace_prefix p r s :
  Str.startsWith p s = true -> Str.replace p r s = r +:+ Str.drop (String.length p) s.
Proof. intros H. destruct s; simpl; by rewrite H. Qed.

Lemma actualId_stripTmdb id : actualId id = stripTmdb id.
Proof.
  unfold actualId, stripTmdb. destruct (Str.startsWith "tmdb-" id) eqn:H; [|done].
  by rewrite replace_prefix.
Qed.

Lemma getStreams_rejected sources picks net type id season episode :
  getIdType id = None ->
  getStreams sources picks net type id season episode = ([], Normal []).
Proof. unfold getStreams, getStreams_try. by intros ->. Qed.

Lemma getStreams_requests sources picks net type id season episode query :
  getIdType id <> None ->
  buildQuery type (actualId id) season episode = Normal query ->
  fst (getStreams sources picks net type id season episode)
  = map (apiUrl type query) sources.
Proof.
  unfold getStreams, getStreams_try. intros Hid Hq.
  destruct (getIdType id); [|done]. by rewrite Hq.
Qed.

(** Against C1 as it is stated: an identifier that starts with [tt] and
    goes on with letters is not of a recognized shape, and yet the
    providers are asked and their results returned. *)
Lemma unrecognized_id_is_queried :
  recognizedShape "ttabc" = false /\
  fst (getStreams STREAM_SOURCES [] (answering [rawResult "magnet:?xt=urn:btih:ab12" None])
         "movie" "ttabc" None None)
  = map (apiUrl "movie" "ttabc") STREAM_SOURCES /\
  exists c, snd (getStreams STREAM_SOURCES []
                   (answering [rawResult "magnet:?xt=urn:btih:ab12" None])
                   "movie" "ttabc" None None) = Normal [c].
Proof. split; [done|]. split; [done|]. eexists. vm_compute. reflexivity. Qed.

(** C1, as the code has it.  [getStreams] turns an identifier away exactly
    when it neither starts with [tt], nor starts with [tmdb-], nor is a
    non-empty run of digits; it then returns the empty list and asks no
    provider.  Every identifier of a recognized shape ([tt\d+], [\d+],
    [tmdb-\d+]) is accepted.  For an accepted identifier every provider is
    asked with the query built from the identifier without its [tmdb-]
    prefix: the identifier alone for a movie, [id:season:episode] for a
    series. *)
Theorem getStreams_id_gate sources picks net type id season episode :
  (getIdType id = None <->
     Str.startsWith "tt" id = false /\ Str.startsWith "tmdb-" id = false /\
     Regex.allDigits id = false) /\
  (getIdType id = None ->
     getStreams sources picks net type id season episode = ([], Normal [])) /\
  (recognizedShape id = true -> getIdType id <> None) /\
  (getIdType id <> None -> isSeries type = false ->
     fst (getStreams sources picks net type id season episode)
     = map (apiUrl type (stripTmdb id)) sources) /\
  (getIdType id <> None -> isSeries type = true ->
     forall s e, season = Some s -> episode = Some e -> s <> "" -> e <> "" ->
     fst (getStreams sources picks net type id season episode)
     = map (apiUrl type (stripTmdb id +:+ ":" +:+ s +:+ ":" +:+ e)) sources).
Proof.
  split; [apply getIdType_None|]. split; [apply getStreams_rejected|].
  split; [apply recognizedShape_accepted|]. split.
  - intros Hid Htype. apply getStreams_requests; [done|].
    unfold buildQuery. by rewrite Htype, actualId_stripTmdb.
  - intros Hid Htype s e -> -> Hs He. apply getStreams_requests; [done|].
    unfold buildQuery. rewrite Htype, actualId_stripTmdb. simpl.
    apply nonEmpty_true in Hs, He. by rewrite Hs, He.
Qed.

Lemma getStreams_id_gate_witness :
  getStreams STREAM_SOURCES [] silent "movie" "abc" None None = ([], Normal []) /\
  getIdType "tmdb-603" <> None /\
  fst (getStreams STREAM_SOURCES [] silent "movie" "tmdb-603" None None)
  = map (apiUrl "movie" "603") STREAM_SOURCES /\
  fst (getStreams STREAM_SOURCES [] silent "series" "tmdb-1399" (Some "1") (Some "2"))
  = map (apiUrl "series" "1399:1:2") STREAM_SOURCES.
Proof.
  destruct (getStreams_id_gate STREAM_SOURCES [] silent "movie" "abc" None None)
    as (_ & Hrejected & _).
  destruct (getStreams_id_gate STREAM_SOURCES [] silent "movie" "tmdb-603" None None)
    as (_ & _ & Hshape & Hmovie & _).
  destruct (getStreams_id_gate STREAM_SOURCES [] silent "series" "tmdb-1399"
              (Some "1") (Some "2")) as (_ & _ & _ & _ & Hseries).
  split; [|split; [|split]].
  - apply Hrejected. reflexivity.
  - apply Hshape. reflexivity.
  - apply Hmovie; [discriminate|reflexivity].
  - apply (Hseries ltac:(discriminate) eq_refl "1" "2" eq_refl eq_refl);
      discriminate.
Defined.

(** ** A series without season or episode ([getStreams]) *)

(** Against C2 as it is stated: for a series without a season the caller
    gets the empty list, not an error. *)
Lemma series_without_season_returns :
  getStreams STREAM_SOURCES [] silent "series" "tt0944947" None None = ([], Normal []) /\
  ~ exists msg, snd (getStreams STREAM_SOURCES [] silent "series" "tt0944947" None None)
                = Throw msg.
Proof. split; [done|]. by intros [msg H]. Qed.

(** C2, as the code has it.  For a series whose season or episode is absent
    or empty and whose identifier is accepted, the [try] block of
    [getStreams] asks no provider and raises the error "Season and episode
    required for series"; the [catch] of [getStreams] takes it, and the
    caller gets the empty list. *)
Theorem series_requires_season_and_episode sources picks net type id season episode :
  isSeries type = true ->
  truthy season = false \/ truthy episode = false ->
  getIdType id <> None ->
  getStreams_try sources picks net type id season episode
  = ([], Throw "Season and episode required for series") /\
  getStreams sources picks net type id season episode = ([], Normal []).
Proof.
  intros Htype Hmissing Hid. unfold getStreams.
  assert (getStreams_try sources picks net type id season episode
          = ([], Throw "Season and episode required for series")) as ->; [|done].
  unfold getStreams_try, buildQuery. destruct (getIdType id); [|done].
  rewrite Htype. by destruct Hmissing as [-> | ->]; rewrite ?orb_true_r.
Qed.

Lemma series_requires_season_and_episode_witness :
  getStreams_try STREAM_SOURCES [] silent "series" "tt0944947" (Some "1") None
  = ([], Throw "Season and episode required for series") /\
  getStreams STREAM_SOURCES [] silent "series" "tt0944947" (Some "1") None
  = ([], Normal []).
Proof.
  apply (series_requires_season_and_episode STREAM_SOURCES [] silent
           "series" "tt0944947" (Some "1") None).
  - reflexivity.
  - right. reflexivity.
  - discriminate.
Defined.

(** ** Deduplication ([getStreams], the [reduce]) *)




(** ** Ranking ([sortStreams]) *)

(** C4.  [sortStreams] rearranges the streams it is given, and of two
    streams of its output the earlier one has the greater tier, or the same
    tier and the smaller size-fit score, or the same tier and score and a
    size at least as large.  This order compares any two streams and is
    transitive, and the score the comparator computes is the distance of
    the size to the ideal range of the tier. *)
Theorem sortStreams_ranked (parseQuality parseSize : string -> Z) (streams : list Stream) :
  sortStreams parseQuality parseSize streams ≡ₚ streams /\
  (forall i j a b,
     sortStreams parseQuality parseSize streams !! i = Some a ->
     sortStreams parseQuality parseSize streams !! j = Some b ->
     (i < j)%nat ->
     rankedBefore parseQuality parseSize a b) /\
  (forall a b, rankedBefore parseQuality parseSize a b \/
               rankedBefore parseQuality parseSize b a) /\
  Transitive (rankedBefore parseQuality parseSize) /\
  (forall quality size,
     getIdealScore size (idealRange quality) = sizeFitScore quality size).
Proof.
  split; [apply sortStreams_Permutation|]. split; [|split; [|split]].
  - intros i j a b. apply StronglySorted_lookup, sortStreams_StronglySorted.
  - apply rankedBefore_total.
  - apply _.
  - apply getIdealScore_sizeFit.
Qed.

Lemma sortStreams_ranked_witness :
  rankedBefore sampleQuality sampleSize (named "1080p") (named "720p").
Proof.
  destruct (sortStreams_ranked sampleQuality sampleSize [named "720p"; named "1080p"])
    as (_ & Hranked & _).
  apply (Hranked 0%nat 1%nat); [reflexivity|reflexivity|lia].
Defined.

(** ** The episode filter ([getStreams], the [filter]) *)

(** C5.  The filter keeps a candidate exactly when the lowercased text it
    reads has a combined token whose leftmost occurrence carries the
    requested season and episode, or has no combined token at all and its
    standalone s tokens are the requested season alone and its standalone
    e tokens the requested episode alone.  So [Show.S02E05.1080p] is kept
    for season 2 and episode 5 and dropped for episode 6, and
    [Show.Season2.Complete] is dropped whatever is requested. *)
Theorem episode_filter_policy :
  (forall (stream : Candidate) (s e : Z),
     matchesEpisode (Int s) (Int e) stream = true <->
     firstMatch CombinedToken (episodeTitle stream) (s, e) \/
     (noMatch CombinedToken (episodeTitle stream) /\
      AllTokens "s" (episodeTitle stream) [s] /\
      AllTokens "e" (episodeTitle stream) [e])) /\
  matchesEpisode (Int 2) (Int 5) (titled "Show.S02E05.1080p") = true /\
  matchesEpisode (Int 2) (Int 6) (titled "Show.S02E05.1080p") = false /\
  (forall s e, matchesEpisode s e (titled "Show.Season2.Complete") = false).
Proof.
  split; [intros stream s e; apply titleMatches_policy|].
  split; [reflexivity|]. split; [reflexivity|].
  intros s e. reflexivity.
Qed.

Lemma AllTokens_bound letter text vs :
  AllTokens letter text vs -> Forall (fun v => 0 <= v < 100) vs.
Proof.
  induction 1 as [|c rest v vs Hv _ IH|]; [constructor| |done].
  constructor; [|done]. inversion Hv as [l d post _ Hd _]; subst.
  by destruct (parseInt_oneOrTwoDigits d Hd).
Qed.

Lemma CombinedToken_bound text a b :
  CombinedToken text (a, b) -> 0 <= a < 100 /\ 0 <= b < 100.
Proof.
  inversion 1 as [ls d1 le d2 post _ Hd1 _ Hd2 _]; subst.
  destruct (parseInt_oneOrTwoDigits d1 Hd1) as [_ ?].
  by destruct (parseInt_oneOrTwoDigits d2 Hd2) as [_ ?].
Qed.

Lemma titleMatches_bound title s e :
  titleMatches (Int s) (Int e) title = true -> 0 <= s < 100 /\ 0 <= e < 100.
Proof.
  intros [(n & _ & Htoken & _)|(_ & Hs & He)]%titleMatches_policy.
  - by apply CombinedToken_bound in Htoken.
  - apply AllTokens_bound in Hs, He.
    inversion Hs; inversion He; subst. lia.
Qed.

Lemma getStreams_series sources picks net id season episode :
  Str.nonEmpty season = true -> Str.nonEmpty episode = true ->
  exists candidates,
    snd (getStreams sources picks net "series" id (Some season) (Some episode))
    = Normal (filter (fun stream =>
                matchesEpisode (parseInt season) (parseInt episode) stream) candidates).
Proof.
  intros Hs He. unfold getStreams, getStreams_try.
  destruct (getIdType id); [|by exists []].
  unfold buildQuery. simpl. rewrite Hs, He. simpl. eauto.
Qed.

(** C10.  The patterns of the filter capture one or two digits, so a
    requested season or episode of 100 or more matches no candidate, and a
    series request for it returns nothing; [e100] in a title reads as
    episode 10. *)
Theorem three_digit_episode_never_matches sources picks net id season episode s e :
  parseInt season = Int s -> parseInt episode = Int e ->
  100 <= s \/ 100 <= e ->
  (forall stream, matchesEpisode (Int s) (Int e) stream = false) /\
  snd (getStreams sources picks net "series" id (Some season) (Some episode)) = Normal [] /\
  AllTokens "e" "show s01 e100" [10].
Proof.
  intros Hseason Hepisode Hbig.
  assert (Hnone : forall stream, matchesEpisode (Int s) (Int e) stream = false).
  { intros stream. unfold matchesEpisode.
    destruct (titleMatches (Int s) (Int e) (episodeTitle stream)) eqn:Hm; [|done].
    apply titleMatches_bound in Hm. lia. }
  split; [done|]. split.
  - assert (Str.nonEmpty season = true) as Hs by (by destruct season).
    assert (Str.nonEmpty episode = true) as He by (by destruct episode).
    destruct (getStreams_series sources picks net id season episode Hs He)
      as (candidates & ->).
    rewrite Hseason, Hepisode. f_equal. apply filter_none.
    intros stream _. rewrite Hnone. by intros [].
  - destruct (matchAll_AllTokens "e" "show s01 e100" eqi_e_not_digit) as (vs & Hvs & Htok).
    vm_compute in Hvs. destruct vs as [|v [|]]; try discriminate.
    injection Hvs as <-. exact Htok.
Qed.

Lemma three_digit_episode_never_matches_witness :
  (forall stream, matchesEpisode (Int 1) (Int 100) stream = false) /\
  snd (getStreams STREAM_SOURCES []
         (answering [rawResult "magnet:?xt=urn:btih:ab12" (Some "Show.S01E100")])
         "series" "tt0944947" (Some "1") (Some "100")) = Normal [].
Proof.
  destruct (three_digit_episode_never_matches STREAM_SOURCES []
              (answering [rawResult "magnet:?xt=urn:btih:ab12" (Some "Show.S01E100")])
              "tt0944947" "1" "100" 1 100) as (Hnone & Hempty & _).
  - reflexivity.
  - reflexivity.
  - right. lia.
  - split; [exact Hnone|exact Hempty].
Defined.

(** ** The derived quality ([getStreams], the [reduce]) *)

(** Against C8 as it is stated: a title with a resolution outside the
    token set of the specification still gives a quality. *)
Lemma other_resolution_is_a_quality :
  deriveQuality (rawResult "magnet:?xt=urn:btih:ab12" (Some "Movie.360p.x264")) = "360p" /\
  Str.toLowerCase "360p" ∉ claimedTokens.
Proof.
  split; [reflexivity|]. unfold claimedTokens. intros H.
  repeat (apply elem_of_cons in H as [H|H]; [discriminate|]).
  by apply elem_of_nil in H.
Qed.

Lemma QualityToken_nonEmpty text q : QualityToken text q -> q <> "".
Proof.
  intros [q' post [(d & p & -> & _)|Hw]].
  - by destruct d.
  - unfold wordToken in Hw. intros ->.
    repeat (apply elem_of_cons in Hw as [Hw|Hw]; [discriminate|]).
    by apply elem_of_nil in Hw.
Qed.

(** C8, as the code has it.  When the provider gave no quality, the derived
    quality is the leftmost token of the title, where a token is three or
    four digits followed by p, or one of the words 4k, uhd, hdts and cam,
    in any letter case; it is empty exactly when the title is absent or
    has no token. *)
Theorem derived_quality_leftmost_token (stream : RawResult) :
  truthy (quality stream) = false ->
  (forall q, q <> "" ->
     deriveQuality stream = q <->
     exists text, title stream = Some text /\ firstMatch QualityToken text q) /\
  (deriveQuality stream = "" <->
     forall text, title stream = Some text -> noMatch QualityToken text).
Proof.
  intros Hquality.
  assert (deriveQuality stream
          = default "" (title stream ≫= Regex.search Regex.quality)) as ->.
  { unfold deriveQuality, orElse, truthy in *.
    destruct (quality stream) as [q|]; [rewrite Hquality|];
      destruct (title stream ≫= Regex.search Regex.quality) as [q'|]; try done;
      by destruct q'. }
  destruct (title stream) as [text|]; simpl.
  - destruct (Regex.search Regex.quality text) as [q0|] eqn:Hsearch; simpl.
    + pose proof Hsearch as Hfirst.
      apply (firstMatch_search _ _ quality_decides) in Hfirst.
      assert (q0 <> "") as Hq0.
      { destruct Hfirst as (n & _ & Htoken & _). by eapply QualityToken_nonEmpty. }
      split.
      * intros q Hq. split.
        -- intros <-. eauto.
        -- intros (text' & [= <-] & Hq'%(firstMatch_search _ _ quality_decides)).
           congruence.
      * split; [done|]. intros Hno. specialize (Hno text eq_refl).
        apply (noMatch_search _ _ quality_decides) in Hno. congruence.
    + split.
      * intros q Hq. split; [done|].
        intros (text' & [= <-] & Hq'%(firstMatch_search _ _ quality_decides)).
        congruence.
      * split; [|done]. intros _ text' [= <-].
        by apply (noMatch_search _ _ quality_decides).
  - split.
    + intros q Hq. split; [done|]. by intros (text & ? & _).
    + split; [|done]. by intros _ text.
Qed.

Lemma derived_quality_leftmost_token_witness :
  firstMatch QualityToken "Movie.360p.x264" "360p".
Proof.
  destruct (derived_quality_leftmost_token
              (rawResult "magnet:?xt=urn:btih:ab12" (Some "Movie.360p.x264")))
    as (Hsome & _).
  - reflexivity.
  - destruct (proj1 (Hsome "360p" ltac:(discriminate)) eq_refl) as (text & Htext & Hfirst).
    injection Htext as <-. exact Hfirst.
Defined.

(** ** Provider failures ([getStreams], the fan-out) *)


Lemma fetchSource_failing net type query source :
  Failing (net (apiUrl type query source)) -> fetchSource net type query source = [].
Proof.
  unfold fetchSource. intros H. inversion H as [| | | | |? n|]; try done.
  by destruct n.
Qed.



Lemma getStreams_returns sources picks net type id season episode :
  exists candidates,
    snd (getStreams sources picks net type id season episode) = Normal candidates.
Proof.
  unfold getStreams.
  destruct (getStreams_try sources picks net type id season episode) as [requests [v|msg]];
    simpl; eauto.
Qed.



(** ** The cap of the response (the route) *)

Lemma streamRoute_response sources picks net detectVideoFeatures parseQuality parseSize
    type id tmdbId season episode candidates :
  routeParams type id = (tmdbId, season, episode) ->
  snd (getStreams sources picks net type tmdbId season episode) = Normal candidates ->
  snd (streamRoute sources picks net detectVideoFeatures parseQuality parseSize type id)
  = take 50 (sortStreams parseQuality parseSize
               (map (formatStream detectVideoFeatures) candidates)).
Proof.
  intros Hparams Hstreams. unfold streamRoute. rewrite Hparams.
  destruct (getIdType tmdbId) eqn:Hid.
  - destruct (getStreams sources picks net type tmdbId season episode)
      as [requests outcome]. simpl in Hstreams. subst outcome.
    by destruct candidates.
  - rewrite getStreams_rejected in Hstreams by done. by injection Hstreams as <-.
Qed.



(** ** Determinism (the whole pipeline) *)

Lemma getStreams_settled sources picks net type id season episode :
  getStreams sources picks net type id season episode
  = getStreams sources [] net type id season episode.
Proof.
  unfold getStreams, getStreams_try.
  destruct (getIdType id); [|done].
  destruct (buildQuery type (actualId id) season episode); [|done].
  by rewrite !Promise_all_settled.
Qed.

(** C9.  The program leaves two things open: the order in which the
    providers' requests settle, and the algorithm of the engine's sort.
    The output depends on neither.  With the same input and the same
    answers of the providers, [getStreams] and the route give the same
    requests and the same ranked streams under any two schedules; and the
    ranked list is the only arrangement of the streams that is sorted and
    keeps tied streams in their order, which is what the language requires
    of the sort. *)
Theorem pipeline_deterministic sources net detectVideoFeatures parseQuality parseSize
    type id season episode (picks1 picks2 : list nat) :
  getStreams sources picks1 net type id season episode
  = getStreams sources picks2 net type id season episode /\
  streamRoute sources picks1 net detectVideoFeatures parseQuality parseSize type id
  = streamRoute sources picks2 net detectVideoFeatures parseQuality parseSize type id /\
  (forall streams out,
     StronglySorted (rankedBefore parseQuality parseSize) out ->
     (forall z, filter (tied (rankedBefore parseQuality parseSize) z) out
                = filter (tied (rankedBefore parseQuality parseSize) z) streams) ->
     out = sortStreams parseQuality parseSize streams).
Proof.
  split; [|split].
  - by rewrite (getStreams_settled _ picks1), (getStreams_settled _ picks2).
  - unfold streamRoute. destruct (routeParams type id) as [[tmdbId s] e].
    by rewrite (getStreams_settled _ picks1), (getStreams_settled _ picks2).
  - apply sortStreams_unique.
Qed.

Lemma pipeline_deterministic_witness :
  [named "1080p"; named "720p"]
  = sortStreams sampleQuality sampleSize [named "720p"; named "1080p"].
Proof.
  destruct (pipeline_deterministic STREAM_SOURCES silent (fun _ => [])
              sampleQuality sampleSize "movie" "tt1" None None [] [])
    as (_ & _ & Hunique).
  apply Hunique.
  - apply SSorted_cons; [repeat constructor|].
    apply Forall_cons. split; [|constructor]. left. reflexivity.
  - intros z. rewrite !filter_cons, !filter_nil.
    destruct (decide (tied (rankedBefore sampleQuality sampleSize) z (named "1080p")))
      as [[H1 H1']|]; [|by rewrite app_nil_r || done].
    destruct (decide (tied (rankedBefore sampleQuality sampleSize) z (named "720p")))
      as [[H2 H2']|]; [|done].
    exfalso. unfold rankedBefore, scoreOf, tierOf, sizeOf in *.
    change (sampleQuality (s_name (named "1080p"))) with 1080 in *.
    change (sampleQuality (s_name (named "720p"))) with 720 in *.
    lia.
Defined.

(** * Further properties *)

(** ** The comparator of [sortStreams] *)

(** X1.  The comparator is one [Array.prototype.sort] can rely on: a stream
    compares equal to itself, swapping the arguments changes the sign of the
    result, and "not after" is transitive. *)
Theorem compareStreams_consistent (parseQuality parseSize : string -> Z) :
  (forall a, compareStreams parseQuality parseSize a a = 0) /\
  (forall a b, compareStreams parseQuality parseSize b a
               = - compareStreams parseQuality parseSize a b) /\
  (forall a b c,
     compareStreams parseQuality parseSize a b <= 0 ->
     compareStreams parseQuality parseSize b c <= 0 ->
     compareStreams parseQuality parseSize a c <= 0).
Proof.
  unfold compareStreams. split; [|split].
  - intros a. rewrite !Z.eqb_refl. simpl. lia.
  - intros a b.
    destruct (Z.eqb_spec (parseQuality (s_name a)) (parseQuality (s_name b))) as [Hq|Hq].
    + rewrite Hq, Z.eqb_refl. simpl.
      generalize (getIdealScore (parseSize (s_name a)) (idealRange (parseQuality (s_name b)))).
      generalize (getIdealScore (parseSize (s_name b)) (idealRange (parseQuality (s_name b)))).
      intros sb sa. destruct (Z.eqb_spec sa sb), (Z.eqb_spec sb sa); simpl; lia.
    + destruct (Z.eqb_spec (parseQuality (s_name b)) (parseQuality (s_name a)));
        simpl; lia.
  - intros a b c.
    destruct (Z.eqb_spec (parseQuality (s_name a)) (parseQuality (s_name b))) as [Hab|Hab];
      destruct (Z.eqb_spec (parseQuality (s_name b)) (parseQuality (s_name c))) as [Hbc|Hbc];
      destruct (Z.eqb_spec (parseQuality (s_name a)) (parseQuality (s_name c))) as [Hac|Hac];
      simpl; try lia.
    rewrite Hab, Hbc.
    generalize (getIdealScore (parseSize (s_name a)) (idealRange (parseQuality (s_name c)))).
    generalize (getIdealScore (parseSize (s_name b)) (idealRange (parseQuality (s_name c)))).
    generalize (getIdealScore (parseSize (s_name c)) (idealRange (parseQuality (s_name c)))).
    intros sc sb sa.
    destruct (Z.eqb_spec sa sb), (Z.eqb_spec sb sc), (Z.eqb_spec sa sc); simpl; lia.
Qed.

Lemma compareStreams_consistent_witness :
  compareStreams sampleQuality sampleSize (named "2160p") (named "720p") <= 0.
Proof.
  destruct (compareStreams_consistent sampleQuality sampleSize) as (_ & _ & Htrans).
  apply (Htrans _ (named "1080p")); vm_compute; discriminate.
Defined.

(** ** [sortStreams] on lists that are already in order *)

(** X2.  [sortStreams] keeps streams that the ranking does not tell apart in
    the order they came in, leaves a ranked list as it is, and so changes
    nothing when it is run again on its own output. *)
Theorem sortStreams_stable (parseQuality parseSize : string -> Z) (streams : list Stream) :
  (forall z,
     filter (tied (rankedBefore parseQuality parseSize) z)
       (sortStreams parseQuality parseSize streams)
     = filter (tied (rankedBefore parseQuality parseSize) z) streams) /\
  (StronglySorted (rankedBefore parseQuality parseSize) streams ->
   sortStreams parseQuality parseSize streams = streams) /\
  sortStreams parseQuality parseSize (sortStreams parseQuality parseSize streams)
  = sortStreams parseQuality parseSize streams.
Proof.
  assert (Hfix : forall l, StronglySorted (rankedBefore parseQuality parseSize) l ->
                           sortStreams parseQuality parseSize l = l).
  { intros l Hl. symmetry. by apply sortStreams_unique. }
  split; [|split].
  - intros z. apply (sort_stable (compareStreams parseQuality parseSize)).
    + apply compareStreams_before.
    + apply compareStreams_strict.
    + apply compareStreams_not_before.
    + apply _.
  - apply Hfix.
  - apply Hfix, sortStreams_StronglySorted.
Qed.

Lemma sortStreams_stable_witness :
  sortStreams sampleQuality sampleSize [named "1080p"; named "720p"]
  = [named "1080p"; named "720p"].
Proof.
  destruct (sortStreams_stable sampleQuality sampleSize [named "1080p"; named "720p"])
    as (_ & Hsorted & _).
  apply Hsorted.
  apply SSorted_cons; [repeat constructor|].
  apply Forall_cons. split; [|constructor]. left. reflexivity.
Defined.

(** ** The derived size ([getStreams], the [reduce]) *)
















(** ** What the deduplication keeps ([getStreams], the [reduce]) *)

Lemma dedupe_kept streams :
  exists kept,
    kept `sublist_of` streams /\ Forall (fun r => is_Some (keyOf r)) kept /\
    dedupe streams = candidateOf <$> kept.
Proof.
  induction streams as [|r streams (kept & Hsub & Hkeys & Heq)] using rev_ind.
  - exists []. by repeat split.
  - rewrite dedupe_snoc, Heq. destruct (keyOf r) as [h|] eqn:Hk.
    + case_decide.
      * exists kept. rewrite app_nil_r. by split; [apply sublist_inserts_r|].
      * exists (kept ++ [r]). split; [by apply sublist_app|]. split.
        -- apply Forall_app. split; [done|]. apply Forall_singleton. by rewrite Hk.
        -- by rewrite fmap_app.
    + exists kept. rewrite app_nil_r. by split; [apply sublist_inserts_r|].
Qed.

Lemma dedupe_elem streams c :
  c ∈ dedupe streams ->
  exists r h, r ∈ streams /\ keyOf r = Some h /\ c = candidateOf r.
Proof.
  destruct (dedupe_kept streams) as (kept & Hsub & Hkeys & ->).
  intros (r & -> & Hr)%list_elem_of_fmap.
  rewrite Forall_forall in Hkeys. destruct (Hkeys r Hr) as [h Hh].
  exists r, h. split; [by eapply elem_of_sublist|done].
Qed.

(** X4.  The merged list keeps the order of the raw results: it is made,
    one candidate for one raw result, of a selection of the raw results in
    their order, all of which have a hash; so it is never longer than the
    list it was made of. *)
Theorem dedupe_keeps_order (streams : list RawResult) :
  (exists kept,
     kept `sublist_of` streams /\ Forall (fun r => is_Some (keyOf r)) kept /\
     dedupe streams = candidateOf <$> kept) /\
  (length (dedupe streams) <= length streams)%nat.
Proof.
  split; [apply dedupe_kept|].
  destruct (dedupe_kept streams) as (kept & Hsub & _ & ->).
  rewrite length_fmap. by apply sublist_length.
Qed.


Lemma getStreams_accepted sources picks net type id season episode query :
  getIdType id <> None ->
  buildQuery type (actualId id) season episode = Normal query ->
  snd (getStreams sources picks net type id season episode) =
  Normal
    (let merged := dedupe (concat (map (fetchSource net type query) sources)) in
     if isSeries type && truthy season && truthy episode
     then filter (fun stream =>
                    matchesEpisode (parseInt (default "" season))
                      (parseInt (default "" episode)) stream) merged
     else merged).
Proof.
  intros Hid Hquery. unfold getStreams, getStreams_try.
  destruct (getIdType id); [|done]. rewrite Hquery. simpl.
  by rewrite Promise_all_settled.
Qed.

Lemma getStreams_not_accepted sources picks net type id season episode :
  getIdType id = None \/
  (exists msg, buildQuery type (actualId id) season episode = Throw msg) ->
  getStreams sources picks net type id season episode = ([], Normal []).
Proof.
  unfold getStreams, getStreams_try. intros [->|[msg Hmsg]]; [done|].
  destruct (getIdType id); [|done]. by rewrite Hmsg.
Qed.


(** ** What a candidate is made of ([getStreams], the [reduce]) *)

Lemma orElse_nonEmpty v d : d <> "" -> orElse v d <> "".
Proof.
  intros Hd. unfold orElse. destruct v as [s|]; [|done].
  destruct (Str.nonEmpty s) eqn:Hs; [by apply nonEmpty_true|done].
Qed.

Lemma isHex_isLowerHex c : Char.isHex c = true -> isLowerHex (Char.toLower c) = true.
Proof. char_cases c. Qed.

Lemma all_isLowerHex s :
  Str.all Char.isHex s = true -> Str.all isLowerHex (Str.toLowerCase s) = true.
Proof.
  induction s as [|c s IH]; [done|]. rewrite toLowerCase_cons. simpl.
  intros [Hc Hs]%andb_true_iff. by rewrite isHex_isLowerHex, IH.
Qed.

Lemma keyOf_magnet r h :
  keyOf r = Some h ->
  magnetOf r <> "" /\ extractHash (magnetOf r) = Some h /\
  h <> "" /\ Str.all isLowerHex h = true.
Proof.
  unfold keyOf, magnetOf. destruct (magnetLink r) as [magnet|]; [|done]. simpl.
  destruct (Str.nonEmpty magnet) eqn:Hne; [|done]. intros Hh.
  split; [by apply nonEmpty_true|]. split; [done|].
  split; [apply nonEmpty_true; by eapply extractHash_nonEmpty|].
  apply extractHash_Some in Hh as (h0 & (n & _ & Hb & _) & ->).
  inversion Hb. by apply all_isLowerHex.
Qed.

(** X6.  Every candidate of the merged list has a magnet link that is not
    empty and whose hash is the hash the candidate carries, a hash that is
    a non-empty run of the characters 0-9 and a-f, and a file name, a
    website title and a source that are not empty. *)
Theorem candidate_well_formed (streams : list RawResult) (c : Candidate) :
  c ∈ dedupe streams ->
  c_magnetLink c <> "" /\
  extractHash (c_magnetLink c) = Some (c_hash c) /\
  c_hash c <> "" /\ Str.all isLowerHex (c_hash c) = true /\
  c_filename c <> "" /\ c_websiteTitle c <> "" /\ c_source c <> "".
Proof.
  intros (r & h & _ & Hk & ->)%dedupe_elem.
  destruct (keyOf_magnet r h Hk) as (Hm & Hh & Hne & Hhex).
  rewrite (candidateOf_hash r h Hk). unfold candidateOf, toCandidate. simpl.
  repeat (split; [done|]).
  assert (deriveFilename r <> "") as Hf.
  { unfold deriveFilename. by apply orElse_nonEmpty, orElse_nonEmpty. }
  split; [done|]. split; by apply orElse_nonEmpty.
Qed.

Lemma candidate_well_formed_witness :
  extractHash (c_magnetLink (candidateOf (rawResult "magnet:?xt=urn:btih:AB12" None)))
  = Some (c_hash (candidateOf (rawResult "magnet:?xt=urn:btih:AB12" None))).
Proof.
  destruct (candidate_well_formed [rawResult "magnet:?xt=urn:btih:AB12" None]
              (candidateOf (rawResult "magnet:?xt=urn:btih:AB12" None)))
    as (_ & Hhash & _).
  - apply list_elem_of_In. vm_compute. auto.
  - exact Hhash.
Defined.

(** ** Where a candidate comes from ([getStreams]) *)

Lemma fetchSource_source net type query src r :
  r ∈ fetchSource net type query src -> source r = Some (name src).
Proof.
  unfold fetchSource.
  destruct (net (apiUrl type query src)) as [msg| |[] status [|[|[]|results]]]; simpl;
    try (by intros ?%elem_of_nil).
  destruct results as [|r0 results]; [by intros ?%elem_of_nil|].
  by intros (r' & -> & _)%(list_elem_of_fmap (withSource src)).
Qed.

Lemma getStreams_sublist sources picks net type id season episode candidates :
  snd (getStreams sources picks net type id season episode) = Normal candidates ->
  exists query,
    candidates `sublist_of` dedupe (concat (map (fetchSource net type query) sources)).
Proof.
  destruct (getIdType id) eqn:Hid.
  - destruct (buildQuery type (actualId id) season episode) as [query|msg] eqn:Hquery.
    + rewrite (getStreams_accepted _ _ _ _ _ _ _ query) by (done || by rewrite Hid).
      cbn zeta. intros [= <-]. exists query.
      destruct (isSeries type && truthy season && truthy episode); [|done].
      apply sublist_filter.
    + rewrite getStreams_not_accepted by eauto. intros [= <-]. exists "".
      apply sublist_nil_l.
  - rewrite getStreams_not_accepted by eauto. intros [= <-]. exists "".
    apply sublist_nil_l.
Qed.

(** X7.  The source a returned candidate names is the name of a provider
    of the table, or the word Unknown when that name is empty: what a
    provider writes into the [source] field of its results is not read. *)
Theorem candidate_source_is_provider sources picks net type id season episode
    (candidates : list Candidate) (c : Candidate) :
  snd (getStreams sources picks net type id season episode) = Normal candidates ->
  c ∈ candidates ->
  exists src, src ∈ sources /\ c_source c = orElse (Some (name src)) "Unknown".
Proof.
  intros (query & Hsub)%getStreams_sublist Hc.
  apply (elem_of_sublist _ _ _ Hc) in Hsub.
  apply dedupe_elem in Hsub as (r & h & Hr & _ & ->).
  apply list_elem_of_In, in_concat in Hr as (results & Hresults & Hr).
  apply in_map_iff in Hresults as (src & <- & Hsrc).
  exists src. split; [by apply list_elem_of_In|].
  apply list_elem_of_In, fetchSource_source in Hr.
  unfold candidateOf, toCandidate. simpl. by rewrite Hr.
Qed.

Lemma candidate_source_is_provider_witness :
  let result :=
    {| magnetLink := Some "magnet:?xt=urn:btih:ab12"; title := None;
       filename := None; quality := None; size := None;
       source := Some "someone else" |} in
  let provider := {| key := "p"; url := "https://p.example"; name := "P" |} in
  exists src,
    src ∈ [provider] /\
    c_source (candidateOf (withSource provider result)) = orElse (Some (name src)) "Unknown".
Proof.
  intros result provider.
  apply (candidate_source_is_provider [provider] [] (answering [result])
           "movie" "tt1" None None [candidateOf (withSource provider result)]).
  - reflexivity.
  - apply list_elem_of_singleton. reflexivity.
Defined.

(** ** The streams of the response (the route) *)

Lemma sublist_fmap {A B : Type} (f : A -> B) (l1 l2 : list A) :
  l1 `sublist_of` l2 -> f <$> l1 `sublist_of` f <$> l2.
Proof. induction 1; simpl; by constructor. Qed.

Lemma getStreams_NoDup sources picks net type id season episode candidates :
  snd (getStreams sources picks net type id season episode) = Normal candidates ->
  NoDup (c_hash <$> candidates).
Proof.
  intros (query & Hsub)%getStreams_sublist.
  eapply sublist_NoDup; [apply dedupe_NoDup|]. by apply sublist_fmap.
Qed.

Lemma getStreams_well_formed sources picks net type id season episode candidates c :
  snd (getStreams sources picks net type id season episode) = Normal candidates ->
  c ∈ candidates ->
  extractHash (c_magnetLink c) = Some (c_hash c) /\ c_filename c <> "".
Proof.
  intros (query & Hsub)%getStreams_sublist Hc.
  apply (elem_of_sublist _ _ _ Hc) in Hsub.
  apply dedupe_elem in Hsub as (r & h & _ & Hk & ->).
  destruct (keyOf_magnet r h Hk) as (_ & Hh & _).
  rewrite (candidateOf_hash r h Hk). split; [done|].
  unfold candidateOf, toCandidate, deriveFilename. simpl.
  by apply orElse_nonEmpty, orElse_nonEmpty.
Qed.

(** X8.  The streams of a response stand in ranked order, no two of them
    have the same [infoHash]; and of each stream the [infoHash] is the hash
    of its own [url], and [notWebReady] is set. *)
Theorem response_streams_distinct sources picks net detectVideoFeatures
    parseQuality parseSize type id :
  let response :=
    snd (streamRoute sources picks net detectVideoFeatures parseQuality parseSize type id) in
  StronglySorted (rankedBefore parseQuality parseSize) response /\
  NoDup (s_infoHash <$> response) /\
  (forall s, s ∈ response ->
     extractHash (s_url s) = Some (s_infoHash s) /\ s_notWebReady s = true).
Proof.
  intros response. unfold response. clear response.
  destruct (routeParams type id) as [[tmdbId season] episode] eqn:Hparams.
  destruct (getStreams_returns sources picks net type tmdbId season episode)
    as (candidates & Hstreams).
  rewrite (streamRoute_response _ _ _ _ _ _ _ _ _ _ _ _ Hparams Hstreams).
  pose proof (sortStreams_Permutation parseQuality parseSize
                (map (formatStream detectVideoFeatures) candidates)) as Hperm.
  split.
  { pose proof (sortStreams_StronglySorted parseQuality parseSize
                  (map (formatStream detectVideoFeatures) candidates)) as Hsorted.
    rewrite <- (take_drop 50) in Hsorted. by apply StronglySorted_app_1_l in Hsorted. }
  split.
  - eapply sublist_NoDup; [|apply sublist_fmap, sublist_take].
    rewrite Hperm. change (map ?f ?l) with (f <$> l). rewrite <- list_fmap_compose.
    by eapply getStreams_NoDup.
  - intros s Hs.
    assert (s ∈ map (formatStream detectVideoFeatures) candidates) as Hin.
    { rewrite <- Hperm. eapply elem_of_sublist; [done|apply sublist_take]. }
    apply list_elem_of_fmap in Hin as (c & -> & Hc).
    destruct (getStreams_well_formed _ _ _ _ _ _ _ _ c Hstreams Hc) as [Hh _].
    done.
Qed.

Lemma response_streams_distinct_witness :
  NoDup (s_infoHash <$> snd (streamRoute oneProvider [] (answering fourResults) (fun _ => [])
                               sampleQuality sampleSize "movie" "tt1")).
Proof.
  pose proof (response_streams_distinct oneProvider [] (answering fourResults) (fun _ => [])
                sampleQuality sampleSize "movie" "tt1") as H.
  cbv zeta in H. destruct H as (_ & Hdistinct & _). exact Hdistinct.
Defined.

(** ** Requests the episode filter answers with nothing *)





(** ** The parameters of the route *)

Lemma split_not_nil sep s : Str.split sep s <> [].
Proof.
  destruct s as [|c s]; [done|]. simpl.
  destruct (Ascii.eqb c sep); [done|]. by destruct (Str.split sep s).
Qed.

Lemma join_cons sep p q ps :
  Str.join sep (p :: q :: ps) = p +:+ sep +:+ Str.join sep (q :: ps).
Proof. reflexivity. Qed.

Lemma join_split sep s : Str.join (String sep "") (Str.split sep s) = s.
Proof.
  induction s as [|c s IH]; [done|]. simpl.
  destruct (Ascii.eqb_spec c sep) as [->|Hne].
  - pose proof (split_not_nil sep s) as Hnil.
    destruct (Str.split sep s) as [|q ps]; [done|].
    by rewrite join_cons, IH.
  - pose proof (split_not_nil sep s) as Hnil.
    destruct (Str.split sep s) as [|q [|q' ps]]; [done| |].
    + simpl in *. by rewrite IH.
    + rewrite join_cons in *. by rewrite append_cons, IH.
Qed.

Lemma startsWith_tmdb_colon a rest :
  Str.startsWith "tmdb-" (a +:+ String ":" rest) = Str.startsWith "tmdb-" a.
Proof.
  destruct a as [|c1 [|c2 [|c3 [|c4 [|c5 a]]]]]; rewrite ?append_cons, ?append_nil_l;
    simpl; rewrite ?andb_false_r; try done;
    repeat (destruct (Ascii.eqb _ _); simpl; try done).
Qed.

Lemma drop_prefixed a rest :
  Str.startsWith "tmdb-" a = true ->
  Str.drop 5 (a +:+ rest) = Str.drop 5 a +:+ rest.
Proof.
  destruct a as [|c1 [|c2 [|c3 [|c4 [|c5 a]]]]]; simpl; rewrite ?andb_false_r; try done.
  all: repeat (destruct (Ascii.eqb _ _); simpl; try done).
Qed.

Lemma stripTmdb_colon a rest :
  stripTmdb (a +:+ String ":" rest) = stripTmdb a +:+ String ":" rest.
Proof.
  unfold stripTmdb. rewrite startsWith_tmdb_colon.
  destruct (Str.startsWith "tmdb-" a) eqn:Ha; [|done]. by apply drop_prefixed.
Qed.

(** X10.  For a series the route reads its parameters off the [:] of the
    identifier.  When the part for the season or the one for the episode
    is missing or empty, no provider is asked and the response has no
    stream.  When the identifier has exactly three parts, the first one
    accepted and the other two not empty, the query that goes to the
    providers is the identifier of the route itself, without its [tmdb-]
    prefix. *)
Theorem series_route_parameters sources picks net detectVideoFeatures
    parseQuality parseSize type id :
  isSeries type = true ->
  (truthy (Str.split ":" id !! 1%nat) = false \/
   truthy (Str.split ":" id !! 2%nat) = false ->
   streamRoute sources picks net detectVideoFeatures parseQuality parseSize type id
   = ([], [])) /\
  (forall tmdbId season episode,
     Str.split ":" id = [tmdbId; season; episode] ->
     getIdType tmdbId <> None -> season <> "" -> episode <> "" ->
     fst (streamRoute sources picks net detectVideoFeatures parseQuality parseSize type id)
     = map (apiUrl type (stripTmdb id)) sources).
Proof.
  intros Htype. split.
  - intros Hmissing. unfold streamRoute, routeParams. rewrite Htype.
    destruct (getIdType (hd "" (Str.split ":" id))) eqn:Hid; [|done].
    rewrite getStreams_not_accepted; [done|]. right.
    exists "Season and episode required for series".
    unfold buildQuery. rewrite Htype.
    by destruct Hmissing as [-> | ->]; rewrite ?orb_true_r.
  - intros tmdbId season episode Hsplit Hid Hs He.
    assert (id = tmdbId +:+ String ":" (season +:+ String ":" episode)) as Hjoin.
    { rewrite <- (join_split ":" id), Hsplit. reflexivity. }
    assert (buildQuery type (actualId tmdbId) (Some season) (Some episode)
            = Normal (stripTmdb id)) as Hquery.
    { unfold buildQuery. rewrite Htype. simpl.
      apply nonEmpty_true in Hs, He. rewrite Hs, He. simpl.
      by rewrite Hjoin, stripTmdb_colon, actualId_stripTmdb. }
    pose proof (getStreams_requests sources picks net type tmdbId (Some season)
                  (Some episode) _ Hid Hquery) as Hrequests.
    unfold streamRoute, routeParams. rewrite Htype, Hsplit. simpl.
    destruct (getIdType tmdbId); [|done].
    destruct (getStreams sources picks net type tmdbId (Some season) (Some episode))
      as [requests [[|c candidates]|msg]]; simpl in *; by subst.
Qed.

Lemma series_route_parameters_witness :
  streamRoute oneProvider [] (answering fourEpisodes) (fun _ => [])
    sampleQuality sampleSize "series" "tt1:1" = ([], []) /\
  fst (streamRoute oneProvider [] (answering fourEpisodes) (fun _ => [])
         sampleQuality sampleSize "series" "tmdb-7:1:2")
  = map (apiUrl "series" "7:1:2") oneProvider.
Proof.
  destruct (series_route_parameters oneProvider [] (answering fourEpisodes) (fun _ => [])
              sampleQuality sampleSize "series" "tt1:1" eq_refl) as (Hmissing & _).
  destruct (series_route_parameters oneProvider [] (answering fourEpisodes) (fun _ => [])
              sampleQuality sampleSize "series" "tmdb-7:1:2" eq_refl) as (_ & Hquery).
  split.
  - apply Hmissing. right. reflexivity.
  - apply (Hquery "tmdb-7" "1" "2"); [reflexivity|discriminate..].
Defined.

(** ** The query in the URL ([encodeURIComponent], [apiUrl]) *)

Lemma hexDigit_escaped c :
  Char.isUnreserved (Char.hexDigit (Char.code c / 16)) = true /\
  Char.isUnreserved (Char.hexDigit (Char.code c mod 16)) = true.
Proof. char_cases c. Qed.

Lemma unhex_hexDigit c :
  ascii_of_N (16 * unhex (Char.hexDigit (Char.code c / 16))
              + unhex (Char.hexDigit (Char.code c mod 16))) = c.
Proof. char_cases c. Qed.

Lemma unreserved_not_percent c : Char.isUnreserved c = true -> Ascii.eqb c "%" = false.
Proof. char_cases c. Qed.

Lemma encode_escaped s : Str.all isEscaped (Str.encodeURIComponent s) = true.
Proof.
  induction s as [|c s IH]; [done|]. simpl. unfold isEscaped in *.
  destruct (Char.isUnreserved c) eqn:Hc; simpl.
  - by rewrite Hc, IH.
  - destruct (hexDigit_escaped c) as [-> ->]. simpl. exact IH.
Qed.

Lemma unescape_encode s : unescape (Str.encodeURIComponent s) = s.
Proof.
  induction s as [|c s IH]; [done|]. simpl.
  destruct (Char.isUnreserved c) eqn:Hc; simpl.
  - by rewrite (unreserved_not_percent c Hc), IH.
  - by rewrite unhex_hexDigit, IH.
Qed.

Lemma all_not_includes P c s :
  Str.all P s = true -> P c = false -> Str.includes (String c "") s = false.
Proof.
  intros Hall Hc. induction s as [|d s IH]; [done|]. simpl in *.
  apply andb_true_iff in Hall as [Hd Hs]. rewrite (IH Hs), andb_true_r, orb_false_r.
  destruct (Ascii.eqb_spec c d) as [->|]; [congruence|done].
Qed.

Lemma append_inj_r s t1 t2 : s +:+ t1 = s +:+ t2 -> t1 = t2.
Proof.
  induction s as [|c s IH]; [done|]. rewrite !append_cons. intros [= H]. by apply IH.
Qed.

(** X11.  The query is written into the URL with unreserved characters and
    [%] only, so none of [&], [=], [?], [#], [/], [:] or a blank of the
    query shows up in the URL as itself; and nothing is lost: two queries
    that differ give URLs that differ. *)
Theorem query_is_escaped (type query : string) (src : Source) :
  Str.all isEscaped (Str.encodeURIComponent query) = true /\
  (forall c, isEscaped c = false ->
     Str.includes (String c "") (Str.encodeURIComponent query) = false) /\
  unescape (Str.encodeURIComponent query) = query /\
  (forall query', apiUrl type query src = apiUrl type query' src -> query = query').
Proof.
  split; [apply encode_escaped|]. split; [|split; [apply unescape_encode|]].
  - intros c Hc. apply (all_not_includes isEscaped); [apply encode_escaped|exact Hc].
  - intros query' Hurl. unfold apiUrl in Hurl.
    do 4 apply append_inj_r in Hurl.
    by rewrite <- (unescape_encode query), Hurl, unescape_encode.
Qed.

Lemma query_is_escaped_witness :
  Str.includes "&" (Str.encodeURIComponent "tt1:1:2&type=movie") = false.
Proof.
  destruct (query_is_escaped "series" "tt1:1:2&type=movie"
              {| key := "p"; url := "https://p.example"; name := "P" |}) as (_ & Hnone & _).
  apply Hnone. reflexivity.
Defined.

(** ** The name and the title of a stream (the route) *)









(** ** The request behind a provider ([fetchWithSafeDNS], [fetchWithTimeout]) *)

Lemma fetchSource_ext net net' type query source :
  net (apiUrl type query source) = net' (apiUrl type query source) ->
  fetchSource net type query source = fetchSource net' type query source.
Proof. unfold fetchSource. by intros ->. Qed.

Lemma getStreams_ext sources picks net net' type id season episode :
  (forall url, net url = net' url) ->
  getStreams sources picks net type id season episode
  = getStreams sources picks net' type id season episode.
Proof.
  intros Hnet. unfold getStreams, getStreams_try.
  destruct (getIdType id); [|done].
  destruct (buildQuery type (actualId id) season episode) as [query|]; [|done].
  assert (map (fetchSource net type query) sources
          = map (fetchSource net' type query) sources) as ->; [|done].
  apply map_ext. intros source. apply fetchSource_ext, Hnet.
Qed.

Lemma fetchSource_filter net type query (keep : Source -> bool) sources :
  (forall source, keep source = false -> fetchSource net type query source = []) ->
  concat (map (fetchSource net type query) (filter (fun source => keep source = true) sources))
  = concat (map (fetchSource net type query) sources).
Proof.
  intros Hdrop. induction sources as [|source sources IH]; [done|].
  destruct (keep source) eqn:Hk.
  - rewrite filter_cons_True by done. simpl. by rewrite IH.
  - rewrite filter_cons_False by (by rewrite Hk). simpl. by rewrite (Hdrop source Hk), IH.
Qed.

(** X13.  Name resolution never fails a request: when the URL does not
    parse or the resolver throws, the request goes out without an agent,
    and when the resolver answers, it goes out once, with an agent pinned
    to the address and secure exactly for an [https] URL, and its outcome
    is the outcome, rejection included.  In [getStreams], a provider whose
    request has not settled when the ten seconds are over contributes
    nothing; and when every request settles in time and the resolver always
    throws, [getStreams] gives what it gives over the plain requests. *)
Theorem requests_fall_back_and_time_out
    (hostnameOf lookup : string -> Completion string)
    (fetch : string -> option Agent -> Outcome) (elapsed : string -> N)
    (timerWinsTie : bool) (sources : list Source) (picks : list nat)
    (type id : string) (season episode : option string) :
  let fetchWithSafeDNS := fetchWithSafeDNS hostnameOf lookup fetch in
  let network := network hostnameOf lookup fetch elapsed timerWinsTie in
  (forall url,
     (forall hostname, hostnameOf url = Normal hostname ->
        exists msg, lookup hostname = Throw msg) ->
     fetchWithSafeDNS url = fetch url None) /\
  (forall url hostname address,
     hostnameOf url = Normal hostname -> lookup hostname = Normal address ->
     fetchWithSafeDNS url
     = fetch url (Some {| secure := Str.startsWith "https" url; address := address |})) /\
  (forall query,
     buildQuery type (actualId id) season episode = Normal query ->
     snd (getStreams sources picks network type id season episode)
     = snd (getStreams
              (filter (fun source =>
                         (elapsed (apiUrl type query source) <=? 10000)%N = true) sources)
              picks network type id season episode)) /\
  ((forall url, (elapsed url < 10000)%N) ->
   (forall hostname, exists msg, lookup hostname = Throw msg) ->
   getStreams sources picks network type id season episode
   = getStreams sources picks (fun url => fetch url None) type id season episode).
Proof.
  intros safe net.
  assert (forall url,
            (forall hostname, hostnameOf url = Normal hostname ->
               exists msg, lookup hostname = Throw msg) ->
            safe url = fetch url None) as Hfallback.
  { intros url Hfail. unfold safe, fetchWithSafeDNS.
    destruct (hostnameOf url) as [hostname|]; [|done].
    destruct (Hfail hostname eq_refl) as [msg ->]. done. }
  split; [exact Hfallback|]. split; [|split].
  - intros url hostname address Hh Ha. unfold safe, fetchWithSafeDNS. by rewrite Hh, Ha.
  - intros query Hquery. unfold getStreams, getStreams_try.
    destruct (getIdType id); [|done]. rewrite Hquery. simpl.
    rewrite !Promise_all_settled.
    rewrite (fetchSource_filter net type query
               (fun source => (elapsed (apiUrl type query source) <=? 10000)%N)); [done|].
    intros source Hlate. apply fetchSource_failing.
    unfold net, network, fetchWithTimeout.
    apply N.leb_gt in Hlate. apply N.ltb_lt in Hlate as ->. constructor.
  - intros Hfast Hfail. apply getStreams_ext. intros url.
    unfold net, network, fetchWithTimeout.
    specialize (Hfast url).
    assert ((10000 <? elapsed url)%N = false) as -> by (apply N.ltb_ge; lia).
    assert ((10000 =? elapsed url)%N = false) as -> by (apply N.eqb_neq; lia).
    simpl. apply Hfallback. intros hostname _. apply Hfail.
Qed.

Lemma requests_fall_back_and_time_out_witness :
  let network :=
    network (fun _ => Normal "p.example") (fun _ => Throw "ENOTFOUND")
      (fun url _ => answering fourResults url) (fun _ => 20000%N) false in
  snd (getStreams oneProvider [] network "movie" "tt1" None None)
  = snd (getStreams [] [] network "movie" "tt1" None None).
Proof.
  intros network.
  destruct (requests_fall_back_and_time_out
              (fun _ => Normal "p.example") (fun _ => Throw "ENOTFOUND")
              (fun url _ => answering fourResults url) (fun _ => 20000%N) false
              oneProvider [] "movie" "tt1" None None) as (_ & _ & Hlate & _).
  apply (Hlate "tt1"). reflexivity.
Defined.

(** ** The file name of a candidate ([getStreams], the merge) *)










